(** * flot-compareseries: a shallow embedding of [jquery.flot.compareseries.js]

    The plugin hooks [compareSeries] into Flot's [processRawData] phase.  For a
    series that opts in, it splits the series' points into two new series
    ([above] / [below]) by comparing them against a reference series, hides the
    original and pushes the two new series onto the plot's series array.

    Modelling choices (all taken from the source, not from the prose spec):
    - JavaScript objects that the code mutates or copies by reference live in
      an explicit store: one store for series objects, one for the
      [bars]/[lines]/[points] option objects.  A series holds the *addresses*
      of its three option objects, so aliasing is visible.
    - Option objects are property maps [gmap string value]; [$.extend] is the
      shallow jQuery merge (it skips properties whose value is [undefined]).
    - A data point is the pair [data[0]], [data[1]] of integer coordinates.
      The lookup object built by [flattenData] is keyed by the coordinate
      (property names of integers are their decimal strings, which are
      pairwise distinct, so we key the map on [Z] directly).
    - The closure variable [currentSeries] is a component of the state.
    - Code that dereferences a dangling address fails ([None]); the theorems
      show this never happens on well-formed input. *)

From stdpp Require Import gmap strings list fin_maps sorting.
From Stdlib Require Import ZArith.

Local Open Scope Z_scope.

(** ** JavaScript values and objects *)

Abbreviation loc := positive (only parsing).

Inductive value :=
  | VUndef
  | VNull
  | VBool (b : bool)
  | VNum (n : Z)
  | VStr (s : string)
  | VRef (l : loc).

#[global] Instance value_eq_dec : EqDecision value.
Proof. solve_decision. Defined.

Abbreviation obj := (gmap string value) (only parsing).

(** Property read [o.k]: a missing property reads as [undefined]. *)
Definition get (o : obj) (k : string) : value := default VUndef (o !! k).

(** JavaScript truthiness (ToBoolean) on the modelled values. *)
Definition truthy (v : value) : bool :=
  match v with
  | VUndef | VNull => false
  | VBool b => b
  | VNum n => negb (n =? 0)
  | VStr s => negb (bool_decide (s = ""%string))
  | VRef _ => true
  end.

(** [$.extend(target, src)], shallow: every property of [src] whose value is
    not [undefined] is written onto [target]. *)
Definition extend (target src : obj) : obj :=
  filter (λ kv, kv.2 ≠ VUndef) src ∪ target.

(** ** Data model *)

(** A raw Flot data point [[d0, d1]]. *)
Record point := Point { d0 : Z; d1 : Z }.

#[global] Instance point_eq_dec : EqDecision point.
Proof. solve_decision. Defined.

(** The [compare] option object of a series.  [seriesIndex = None] stands for
    an absent property (as in the [{ enabled: false }] given to a copy). *)
Record compare_opts := CompareOpts {
  enabled : bool;
  seriesIndex : option Z;
  colorAbove : value;
  colorBelow : value;
}.

(** Plugin defaults ([options.series.compare] in the source). *)
Definition options : compare_opts :=
  {| enabled := false;
     seriesIndex := Some 0;
     colorAbove := VStr "#FF0000";
     colorBelow := VStr "#00FF00" |}.

Record datapoints_t := Datapoints {
  dp_points : list Z;
  pointsize : value;
  format : value;
}.

(** A series object.  [bars], [lines] and [points] are references to option
    objects in the style store; [extra] collects every other own property
    (axes, shadow size, ...), which the code only ever copies. *)
Record series := Series {
  data : list point;
  datapoints : datapoints_t;
  label : value;
  color : value;
  bars : loc;
  lines : loc;
  points : loc;
  compare : compare_opts;
  originSeries : option loc;
  extra : obj;
}.

(** Program state: the two stores, the array returned by [plot.getData()],
    and the closure counter [currentSeries] of [init]. *)
Record state := State {
  series_heap : gmap loc series;
  style_heap : gmap loc obj;
  plot_data : list loc;
  currentSeries : Z;
}.

(** ** A state-and-failure monad for the imperative code *)

Definition M (A : Type) : Type := state → option (A * state).

Definition ret {A} (a : A) : M A := λ st, Some (a, st).

Definition bind {A B} (m : M A) (k : A → M B) : M B :=
  λ st, match m st with
        | Some (a, st') => k a st'
        | None => None
        end.

Notation "'do' x <- m ; k" := (bind m (λ x, k))
  (at level 10, x name, m at level 100, k at level 200).
Notation "m ;; k" := (bind m (λ _, k))
  (at level 100, k at level 200, right associativity).

Definition read_series (l : loc) : M series :=
  λ st, (λ s, (s, st)) <$> series_heap st !! l.

Definition read_style (l : loc) : M obj :=
  λ st, (λ o, (o, st)) <$> style_heap st !! l.

(** Field assignments [l.f = ...] on a series object. *)
Definition modify_series (l : loc) (f : series → series) : M unit :=
  λ st, match series_heap st !! l with
        | Some s => Some (tt, {| series_heap := <[l := f s]> (series_heap st);
                                 style_heap := style_heap st;
                                 plot_data := plot_data st;
                                 currentSeries := currentSeries st |})
        | None => None
        end.

(** Property assignment [l.k = v] on an option object. *)
Definition write_style (l : loc) (k : string) (v : value) : M unit :=
  λ st, match style_heap st !! l with
        | Some o => Some (tt, {| series_heap := series_heap st;
                                 style_heap := <[l := <[k := v]> o]> (style_heap st);
                                 plot_data := plot_data st;
                                 currentSeries := currentSeries st |})
        | None => None
        end.

(** Object creation: a new object gets an address not in use. *)
Definition alloc_series (s : series) : M loc :=
  λ st, let l := fresh (dom (series_heap st)) in
        Some (l, {| series_heap := <[l := s]> (series_heap st);
                    style_heap := style_heap st;
                    plot_data := plot_data st;
                    currentSeries := currentSeries st |}).

Definition alloc_style (o : obj) : M loc :=
  λ st, let l := fresh (dom (style_heap st)) in
        Some (l, {| series_heap := series_heap st;
                    style_heap := <[l := o]> (style_heap st);
                    plot_data := plot_data st;
                    currentSeries := currentSeries st |}).

(** [plot.getData().push(l)] *)
Definition push_plot (l : loc) : M unit :=
  λ st, Some (tt, {| series_heap := series_heap st;
                     style_heap := style_heap st;
                     plot_data := plot_data st ++ [l];
                     currentSeries := currentSeries st |}).

(** [currentSeries++] (the new value is returned). *)
Definition incr_currentSeries : M Z :=
  λ st, Some (currentSeries st + 1,
              {| series_heap := series_heap st;
                 style_heap := style_heap st;
                 plot_data := plot_data st;
                 currentSeries := currentSeries st + 1 |}).

(** [$.each(arr, callback)] over an array. *)
Fixpoint each {A} (i : nat) (arr : list A) (callback : nat → A → M unit) : M unit :=
  match arr with
  | [] => ret tt
  | x :: arr' => callback i x ;; each (S i) arr' callback
  end.

(** ** The functions of the plugin *)

(** Array read [arr[i]] for a numeric (or missing) index: anything outside
    [0 .. length-1] reads as [undefined], here [None]. *)
Definition js_index {A} (arr : list A) (i : option Z) : option A :=
  match i with
  | Some z => if 0 <=? z then arr !! Z.to_nat z else None
  | None => None
  end.

(** [plot.getData()] *)
Definition getData : M (list loc) := λ st, Some (plot_data st, st).

(** [getSeries(plot, i)]: the series at index [i] of [plot.getData()], or
    [false] (here [None]) when [series[i]] is [undefined]. *)
Definition getSeries (i : option Z) : M (option loc) :=
  do series <- getData;
  ret (js_index series i).

(** [flattenData(data, isVertical)] *)
Definition flattenData (data : list point) (isVertical : bool) : gmap Z Z :=
  fold_left (λ flat p, if isVertical then <[d0 p := d1 p]> flat
                       else <[d1 p := d0 p]> flat) data ∅.

(** Field setters, one per assignment [copy.f = ...] in the source. *)
Definition set_data (v : list point) (c : series) : series :=
  {| data := v; datapoints := datapoints c; label := label c; color := color c;
     bars := bars c; lines := lines c; points := points c;
     compare := compare c; originSeries := originSeries c; extra := extra c |}.
Definition set_datapoints (v : datapoints_t) (c : series) : series :=
  {| data := data c; datapoints := v; label := label c; color := color c;
     bars := bars c; lines := lines c; points := points c;
     compare := compare c; originSeries := originSeries c; extra := extra c |}.
Definition set_label (v : value) (c : series) : series :=
  {| data := data c; datapoints := datapoints c; label := v; color := color c;
     bars := bars c; lines := lines c; points := points c;
     compare := compare c; originSeries := originSeries c; extra := extra c |}.
Definition set_color (v : value) (c : series) : series :=
  {| data := data c; datapoints := datapoints c; label := label c; color := v;
     bars := bars c; lines := lines c; points := points c;
     compare := compare c; originSeries := originSeries c; extra := extra c |}.
Definition set_bars (v : loc) (c : series) : series :=
  {| data := data c; datapoints := datapoints c; label := label c; color := color c;
     bars := v; lines := lines c; points := points c;
     compare := compare c; originSeries := originSeries c; extra := extra c |}.
Definition set_lines (v : loc) (c : series) : series :=
  {| data := data c; datapoints := datapoints c; label := label c; color := color c;
     bars := bars c; lines := v; points := points c;
     compare := compare c; originSeries := originSeries c; extra := extra c |}.
Definition set_points (v : loc) (c : series) : series :=
  {| data := data c; datapoints := datapoints c; label := label c; color := color c;
     bars := bars c; lines := lines c; points := v;
     compare := compare c; originSeries := originSeries c; extra := extra c |}.
Definition set_compare (v : compare_opts) (c : series) : series :=
  {| data := data c; datapoints := datapoints c; label := label c; color := color c;
     bars := bars c; lines := lines c; points := points c;
     compare := v; originSeries := originSeries c; extra := extra c |}.
Definition set_originSeries (v : option loc) (c : series) : series :=
  {| data := data c; datapoints := datapoints c; label := label c; color := color c;
     bars := bars c; lines := lines c; points := points c;
     compare := compare c; originSeries := v; extra := extra c |}.
Definition set_extra (v : obj) (c : series) : series :=
  {| data := data c; datapoints := datapoints c; label := label c; color := color c;
     bars := bars c; lines := lines c; points := points c;
     compare := compare c; originSeries := originSeries c; extra := v |}.

(** [copySeries(series, datapoints, color)] *)
Definition copySeries (series : loc) (dps : datapoints_t) (col : value) : M loc :=
  do s <- read_series series;
  (* var copy = $.extend({}, series): a shallow copy, so at this point the
     copy still shares [bars], [lines] and [points] with [series] *)
  do copy <- alloc_series (set_extra (extend ∅ (extra s)) s);
  modify_series copy (set_data []);;
  modify_series copy
    (set_datapoints {| dp_points := []; pointsize := pointsize dps;
                       format := format dps |});;
  modify_series copy (set_label VNull);;
  (* copy.bars = $.extend({}, series.bars), and likewise lines and points *)
  do sb <- read_style (bars s);
  do b <- alloc_style (extend ∅ sb);
  modify_series copy (set_bars b);;
  do sl <- read_style (lines s);
  do l <- alloc_style (extend ∅ sl);
  modify_series copy (set_lines l);;
  do sp <- read_style (points s);
  do p <- alloc_style (extend ∅ sp);
  modify_series copy (set_points p);;
  modify_series copy (set_color col);;
  modify_series copy (set_originSeries (Some series));;
  (* copy.compare = { enabled: false } *)
  modify_series copy
    (set_compare {| enabled := false; seriesIndex := None;
                    colorAbove := VUndef; colorBelow := VUndef |});;
  ret copy.

(** [value >= compareData[key]]: a missing entry reads as [undefined], and a
    number is never [>=] [undefined]. *)
Definition js_ge (v : Z) (c : option Z) : bool :=
  match c with
  | Some w => w <=? v
  | None => false
  end.

(** [compareData.hasOwnProperty(key)] *)
Definition hasOwnProperty (flat : gmap Z Z) (key : Z) : bool :=
  bool_decide (is_Some (flat !! key)).

(** The callback of the [$.each] loop in [compareSeries]. *)
Definition classify (isVertical : bool) (compareData : gmap Z Z)
    (above below : loc) (i : nat) (d : point) : M unit :=
  let key := if isVertical then d0 d else d1 d in
  let value := if isVertical then d1 d else d0 d in
  if js_ge value (compareData !! key) || negb (hasOwnProperty compareData key)
  then modify_series above (λ a, set_data (data a ++ [d]) a)
  else modify_series below (λ b, set_data (data b ++ [d]) b).

(** [compareSeries(plot, series, data, datapoints)], the [processRawData]
    hook.  The parameter [data] is never read by the source (the loop reads
    [series.data]); it is kept for the signature. *)
Definition compareSeries (series : loc) (data_arg : list point)
    (dps : datapoints_t) : M unit :=
  do cur <- incr_currentSeries;
  do s <- read_series series;
  if negb (enabled (compare s))
     || bool_decide (seriesIndex (compare s) = Some cur)
  then ret tt
  else
    do found <- getSeries (seriesIndex (compare s));
    match found with
    | None => ret tt
    | Some comparedSeries =>
        do r <- read_series comparedSeries;
        do b <- read_style (bars s);
        let isVertical :=
          negb (truthy (get b "show") && truthy (get b "horizontal")) in
        let compareData := flattenData (data r) isVertical in
        do above <- copySeries series dps (colorAbove (compare s));
        do below <- copySeries series dps (colorBelow (compare s));
        write_style (bars s) "show" (VBool false);;
        write_style (lines s) "show" (VBool false);;
        write_style (points s) "show" (VBool false);;
        each 0 (data s) (classify isVertical compareData above below);;
        push_plot above;;
        push_plot below
    end.

(** A run of the spec's scenario: subject [[1,5],[2,3],[3,8]] at index 1,
    reference [[1,5],[2,4],[3,7]] at index 0. *)
Module Scenario.
Definition style0 : obj := {[ "show"%string := VBool true ]}.
Definition no_dps : datapoints_t :=
    {| dp_points := []; pointsize := VUndef; format := VUndef |}.
Definition mk (d : list point) (b l p : loc) (c : compare_opts) : series :=
    {| data := d; datapoints := no_dps; label := VStr "s"; color := VStr "#000";
       bars := b; lines := l; points := p; compare := c;
       originSeries := None; extra := ∅ |}.
Definition reference : series :=
    mk [Point 1 5; Point 2 4; Point 3 7] 1 2 3 options.
Definition subject : series :=
    mk [Point 1 5; Point 2 3; Point 3 8; Point 4 0] 4 5 6
       {| enabled := true; seriesIndex := Some 0;
          colorAbove := VStr "red"; colorBelow := VStr "green" |}.
Definition st0 : state :=
    {| series_heap := {[ 1%positive := reference; 2%positive := subject ]};
       style_heap := {[ 1%positive := style0; 2%positive := style0;
                        3%positive := style0; 4%positive := style0;
                        5%positive := style0; 6%positive := style0 ]};
       plot_data := [1%positive; 2%positive];
       currentSeries := 0 |}.

  (** The same call with a horizontal-bar subject, and with a subject that
      has no points. *)
Definition horizontal_bars : obj :=
    {[ "show"%string := VBool true; "horizontal"%string := VBool true ]}.
Definition subject_h : series :=
    mk [Point 1 5; Point 3 4; Point 2 7; Point 9 9] 4 5 6
       {| enabled := true; seriesIndex := Some 0;
          colorAbove := VStr "red"; colorBelow := VStr "green" |}.
Definition st_h : state :=
    {| series_heap := {[ 1%positive := reference; 2%positive := subject_h ]};
       style_heap := <[4%positive := horizontal_bars]> (style_heap st0);
       plot_data := [1%positive; 2%positive];
       currentSeries := 0 |}.
Definition st_v : state :=
    {| series_heap := series_heap st_h;
       style_heap := style_heap st0;
       plot_data := [1%positive; 2%positive];
       currentSeries := 0 |}.
Definition subject_empty : series :=
    mk [] 4 5 6
       {| enabled := true; seriesIndex := Some 0;
          colorAbove := VStr "red"; colorBelow := VStr "green" |}.
Definition st_empty : state :=
    {| series_heap := {[ 1%positive := reference; 2%positive := subject_empty ]};
       style_heap := style_heap st0;
       plot_data := [1%positive; 2%positive];
       currentSeries := 0 |}.

(** A plot whose second series names its own position, right after [init]
    (the counter is still [-1]); and one processing pass over its two series:
    the hook is called for position 0, then for position 1. *)
Definition subject_self : series :=
  mk [Point 1 5; Point 2 3] 4 5 6
     {| enabled := true; seriesIndex := Some 1;
        colorAbove := VStr "red"; colorBelow := VStr "green" |}.
Definition st_self : state :=
  {| series_heap := {[ 1%positive := reference; 2%positive := subject_self ]};
     style_heap := style_heap st0;
     plot_data := [1%positive; 2%positive];
     currentSeries := -1 |}.
Definition pass : M unit :=
  compareSeries 1%positive (data reference) no_dps;;
  compareSeries 2%positive (data subject_self) no_dps.
(** The same plot after one pass: only the counter has moved. *)
Definition st_self_1 : state :=
  {| series_heap := series_heap st_self;
     style_heap := style_heap st_self;
     plot_data := plot_data st_self;
     currentSeries := 1 |}.
End Scenario.

(** * Properties *)

(** ** The monad and the store primitives *)

Lemma bind_Some {A B} (m : M A) (k : A → M B) st a st1 :
  m st = Some (a, st1) → bind m k st = k a st1.
Proof. unfold bind. by intros ->. Qed.

Lemma read_series_Some st l s :
  series_heap st !! l = Some s → read_series l st = Some (s, st).
Proof. unfold read_series. by intros ->. Qed.

Lemma read_style_Some st l o :
  style_heap st !! l = Some o → read_style l st = Some (o, st).
Proof. unfold read_style. by intros ->. Qed.

Lemma modify_series_Some st l f s :
  series_heap st !! l = Some s →
  modify_series l f st =
    Some (tt, {| series_heap := <[l := f s]> (series_heap st);
                 style_heap := style_heap st;
                 plot_data := plot_data st;
                 currentSeries := currentSeries st |}).
Proof. unfold modify_series. by intros ->. Qed.

Lemma write_style_Some st l k v o :
  style_heap st !! l = Some o →
  write_style l k v st =
    Some (tt, {| series_heap := series_heap st;
                 style_heap := <[l := <[k := v]> o]> (style_heap st);
                 plot_data := plot_data st;
                 currentSeries := currentSeries st |}).
Proof. unfold write_style. by intros ->. Qed.

(** Simplify projections out of explicit state records only. *)
Ltac proj := cbn [series_heap style_heap plot_data currentSeries].

(** Membership in a list written out. *)
Ltac in_list :=
  solve [repeat first [apply list_elem_of_here | apply list_elem_of_further]].

(** ** [copySeries] *)

(** The object [copySeries] returns, given the addresses [b], [l], [p] of its
    three new option objects. *)
Definition derived (subj : loc) (s : series) (dps : datapoints_t)
    (col : value) (b l p : loc) : series :=
  {| data := [];
     datapoints := {| dp_points := []; pointsize := pointsize dps;
                      format := format dps |};
     label := VNull;
     color := col;
     bars := b; lines := l; points := p;
     compare := {| enabled := false; seriesIndex := None;
                   colorAbove := VUndef; colorBelow := VUndef |};
     originSeries := Some subj;
     extra := extend ∅ (extra s) |}.

Lemma copySeries_run st subj s dps col ob ol op :
  series_heap st !! subj = Some s →
  style_heap st !! bars s = Some ob →
  style_heap st !! lines s = Some ol →
  style_heap st !! points s = Some op →
  ∃ c b l p,
    copySeries subj dps col st =
      Some (c, {| series_heap := <[c := derived subj s dps col b l p]> (series_heap st);
                  style_heap := <[p := extend ∅ op]> (<[l := extend ∅ ol]>
                                  (<[b := extend ∅ ob]> (style_heap st)));
                  plot_data := plot_data st;
                  currentSeries := currentSeries st |})
    ∧ (c ∉ dom (series_heap st))
    ∧ (b ∉ dom (style_heap st)) ∧ (l ∉ dom (style_heap st))
    ∧ (p ∉ dom (style_heap st))
    ∧ b ≠ l ∧ b ≠ p ∧ l ≠ p.
Proof.
  intros Hs Hb Hl Hp.
  pose proof (is_fresh (dom (series_heap st))) as Hc.
  set (c := fresh (dom (series_heap st))) in Hc.
  pose proof (is_fresh (dom (style_heap st))) as Hfb.
  set (b := fresh (dom (style_heap st))) in Hfb.
  set (H1 := <[b := extend ∅ ob]> (style_heap st)).
  pose proof (is_fresh (dom H1)) as Hfl.
  set (l := fresh (dom H1)) in Hfl.
  set (H2 := <[l := extend ∅ ol]> H1).
  pose proof (is_fresh (dom H2)) as Hfp.
  set (p := fresh (dom H2)) in Hfp.
  assert ((l ∉ dom (style_heap st)) ∧ b ≠ l) as [Hl' Hbl].
  { unfold H1 in Hfl. rewrite dom_insert_L in Hfl. set_solver. }
  assert ((p ∉ dom (style_heap st)) ∧ b ≠ p ∧ l ≠ p) as (Hp' & Hbp & Hlp).
  { unfold H2, H1 in Hfp. rewrite !dom_insert_L in Hfp. set_solver. }
  assert (b ≠ lines s) as Hbls.
  { intros ->. apply Hfb, elem_of_dom. eauto. }
  assert (b ≠ points s) as Hbps.
  { intros ->. apply Hfb, elem_of_dom. eauto. }
  assert (l ≠ points s) as Hlps.
  { intros ->. apply Hl', elem_of_dom. eauto. }
  exists c, b, l, p. split; [|done].
  unfold copySeries.
  rewrite (bind_Some _ _ _ _ _ (read_series_Some _ _ _ Hs)).
  unfold bind at 1. unfold alloc_series at 1. fold c.
  do 3 (erewrite bind_Some; [| apply modify_series_Some; proj; apply lookup_insert_eq ]; proj).
  erewrite bind_Some; [| apply read_style_Some; proj; eassumption ].
  unfold bind at 1. unfold alloc_style at 1. proj. fold b. fold H1.
  erewrite bind_Some; [| apply modify_series_Some; proj; apply lookup_insert_eq ].
  proj.
  erewrite bind_Some; [| apply read_style_Some; proj; unfold H1;
                          rewrite lookup_insert_ne by done; eassumption ].
  unfold bind at 1. unfold alloc_style at 1. proj. fold l. fold H2.
  erewrite bind_Some; [| apply modify_series_Some; proj; apply lookup_insert_eq ].
  proj.
  erewrite bind_Some; [| apply read_style_Some; proj; unfold H2, H1;
                          rewrite !lookup_insert_ne by done; eassumption ].
  unfold bind at 1. unfold alloc_style at 1. proj. fold p.
  do 4 (erewrite bind_Some; [| apply modify_series_Some; proj; apply lookup_insert_eq ]; proj).
  unfold ret. rewrite !insert_insert_eq. reflexivity.
Qed.

(** ** The classification loop *)

(** The test of the [if] inside the loop body. *)
Definition goes_above (isVertical : bool) (compareData : gmap Z Z)
    (d : point) : bool :=
  let key := if isVertical then d0 d else d1 d in
  let value := if isVertical then d1 d else d0 d in
  js_ge value (compareData !! key) || negb (hasOwnProperty compareData key).

Lemma classify_unfold v cd above below i d :
  classify v cd above below i d =
    if goes_above v cd d
    then modify_series above (λ a, set_data (data a ++ [d]) a)
    else modify_series below (λ b, set_data (data b ++ [d]) b).
Proof. reflexivity. Qed.

Lemma set_data_set_data v w c : set_data v (set_data w c) = set_data v c.
Proof. reflexivity. Qed.

Lemma set_data_id c : set_data (data c) c = c.
Proof. by destruct c. Qed.

Lemma filter_bool_cons {A} (f : A → bool) x (l : list A) :
  filter (λ d, f d) (x :: l) = if f x then x :: filter (λ d, f d) l
                               else filter (λ d, f d) l.
Proof. rewrite filter_cons. destruct (f x); by case_decide. Qed.

Lemma filter_negb_cons {A} (f : A → bool) x (l : list A) :
  filter (λ d, ¬ f d) (x :: l) = if f x then filter (λ d, ¬ f d) l
                                 else x :: filter (λ d, ¬ f d) l.
Proof.
  rewrite filter_cons. destruct (f x); case_decide; try done; naive_solver.
Qed.

Lemma each_classify_run v cd above below (l : list point) :
  above ≠ below →
  ∀ i st A B,
    series_heap st !! above = Some A →
    series_heap st !! below = Some B →
    each i l (classify v cd above below) st =
      Some (tt,
        {| series_heap :=
             <[below := set_data (data B ++ filter (λ d, ¬ goes_above v cd d) l) B]>
               (<[above := set_data (data A ++ filter (λ d, goes_above v cd d) l) A]>
                  (series_heap st));
           style_heap := style_heap st;
           plot_data := plot_data st;
           currentSeries := currentSeries st |}).
Proof.
  intros Hne. induction l as [|x l IH]; intros i st A B HA HB.
  - cbn. rewrite !app_nil_r, !set_data_id.
    rewrite (insert_id _ above A) by done.
    rewrite (insert_id _ below B) by done.
    by destruct st.
  - cbn [each]. rewrite classify_unfold.
    destruct (goes_above v cd x) eqn:Hx.
    + erewrite bind_Some; [| by apply modify_series_Some ].
      erewrite IH; proj;
        [| by rewrite lookup_insert_eq | by rewrite lookup_insert_ne ].
      rewrite insert_insert_eq.
      rewrite filter_bool_cons, filter_negb_cons, Hx.
      cbn [data set_data]. rewrite set_data_set_data.
      by rewrite <- app_assoc.
    + erewrite bind_Some; [| by apply modify_series_Some ].
      erewrite IH; proj;
        [| by rewrite lookup_insert_ne | by rewrite lookup_insert_eq ].
      rewrite (insert_insert_ne _ above below) by done.
      rewrite insert_insert_eq.
      rewrite filter_bool_cons, filter_negb_cons, Hx.
      cbn [data set_data]. rewrite set_data_set_data.
      by rewrite <- app_assoc.
Qed.

(** ** [compareSeries]: the partitioning run *)

(** [series.bars.show = false] and its two siblings write this. *)
Definition hide (o : obj) : obj := <["show"%string := VBool false]> o.

(** The orientation flag the source computes from the subject's [bars]. *)
Definition isVertical_of (subject_bars : obj) : bool :=
  negb (truthy (get subject_bars "show") && truthy (get subject_bars "horizontal")).

Lemma write_style_alter st l k v :
  is_Some (style_heap st !! l) →
  write_style l k v st =
    Some (tt, {| series_heap := series_heap st;
                 style_heap := alter (insert k v) l (style_heap st);
                 plot_data := plot_data st;
                 currentSeries := currentSeries st |}).
Proof.
  intros [o Ho]. rewrite (write_style_Some _ _ _ _ _ Ho).
  do 3 f_equal. apply map_eq. intros g.
  rewrite lookup_alter, lookup_insert.
  case_decide; subst; by rewrite ?Ho.
Qed.

(** When the hook partitions: [subj] is a series object [s] with comparison
    enabled, whose [seriesIndex] differs from the position counter (as
    incremented for this call) and resolves in [plot.getData()] to a series
    object [r] at address [ref]; the subject's option objects exist. *)
Record partitioned (st : state) (subj : loc) (s : series)
    (ref : loc) (r : series) : Prop := {
  part_subject : series_heap st !! subj = Some s;
  part_enabled : enabled (compare s) = true;
  part_not_self : seriesIndex (compare s) ≠ Some (currentSeries st + 1);
  part_resolves : js_index (plot_data st) (seriesIndex (compare s)) = Some ref;
  part_reference : series_heap st !! ref = Some r;
  part_bars : is_Some (style_heap st !! bars s);
  part_lines : is_Some (style_heap st !! lines s);
  part_points : is_Some (style_heap st !! points s);
}.

Lemma compareSeries_run st subj s ref r darg dps ob ol op :
  partitioned st subj s ref r →
  style_heap st !! bars s = Some ob →
  style_heap st !! lines s = Some ol →
  style_heap st !! points s = Some op →
  ∃ above below ba la pa bb lb pb,
    let v := isVertical_of ob in
    let cd := flattenData (data r) v in
    compareSeries subj darg dps st =
      Some (tt,
        {| series_heap :=
             <[below := set_data (filter (λ d, ¬ goes_above v cd d) (data s))
                          (derived subj s dps (colorBelow (compare s)) bb lb pb)]>
               (<[above := set_data (filter (λ d, goes_above v cd d) (data s))
                             (derived subj s dps (colorAbove (compare s)) ba la pa)]>
                  (series_heap st));
           style_heap :=
             alter hide (points s) (alter hide (lines s) (alter hide (bars s)
               (<[pb := extend ∅ op]> (<[lb := extend ∅ ol]> (<[bb := extend ∅ ob]>
                 (<[pa := extend ∅ op]> (<[la := extend ∅ ol]> (<[ba := extend ∅ ob]>
                   (style_heap st)))))))));
           plot_data := plot_data st ++ [above; below];
           currentSeries := currentSeries st + 1 |})
    ∧ (above ∉ dom (series_heap st)) ∧ (below ∉ dom (series_heap st))
    ∧ above ≠ below
    ∧ NoDup [ba; la; pa; bb; lb; pb]
    ∧ Forall (λ g, g ∉ dom (style_heap st)) [ba; la; pa; bb; lb; pb].
Proof.
  intros [Hs Hen Hself Hres Hr _ _ _] Hb Hl Hp.
  set (st1 := {| series_heap := series_heap st; style_heap := style_heap st;
                 plot_data := plot_data st;
                 currentSeries := currentSeries st + 1 |}).
  destruct (copySeries_run st1 subj s dps (colorAbove (compare s)) ob ol op)
    as (above & ba & la & pa & Hrun1 & Ha & Hba & Hla & Hpa & Hn1 & Hn2 & Hn3);
    [done..|].
  cbn [series_heap style_heap plot_data currentSeries st1] in *.
  match type of Hrun1 with _ = Some (_, ?x) => set (st2 := x) in * end.
  assert (above ≠ subj) as Has.
  { intros ->. apply Ha, elem_of_dom. eauto. }
  assert (∀ g o, style_heap st !! g = Some o → style_heap st2 !! g = Some o)
    as Hkeep.
  { intros g o Hg. unfold st2. proj.
    rewrite !lookup_insert_ne; [done|intros ->..];
      [apply Hba|apply Hla|apply Hpa]; apply elem_of_dom; eauto. }
  destruct (copySeries_run st2 subj s dps (colorBelow (compare s)) ob ol op)
    as (below & bb & lb & pb & Hrun2 & Hbl & Hbb & Hlb & Hpb & Hm1 & Hm2 & Hm3);
    [by unfold st2; proj; rewrite lookup_insert_ne | by apply Hkeep..|].
  unfold st2 in Hbl, Hbb, Hlb, Hpb. proj.
  cbn [series_heap style_heap] in Hbl, Hbb, Hlb, Hpb.
  rewrite dom_insert_L in Hbl. rewrite !dom_insert_L in Hbb, Hlb, Hpb.
  exists above, below, ba, la, pa, bb, lb, pb.
  split; [| split_and!; [done| set_solver | set_solver | |] ].
  - cbn zeta. unfold compareSeries.
    unfold bind at 1. unfold incr_currentSeries at 1. fold st1.
    erewrite bind_Some; [| by apply read_series_Some ].
    rewrite Hen. cbn [negb orb].
    rewrite bool_decide_eq_false_2 by done.
    unfold getSeries at 1, getData at 1.
    unfold bind at 1. unfold bind at 1. unfold ret at 1.
    cbn [plot_data st1]. rewrite Hres.
    erewrite bind_Some; [| by apply read_series_Some ].
    erewrite bind_Some; [| by apply read_style_Some ].
    erewrite bind_Some; [| exact Hrun1 ].
    erewrite bind_Some; [| exact Hrun2 ].
    fold (isVertical_of ob).
    do 3 (erewrite bind_Some;
          [| apply write_style_alter; unfold st2; proj;
             rewrite ?lookup_alter_is_Some, ?lookup_insert_is_Some'; eauto 10 ];
          proj).
    erewrite bind_Some;
      [| apply each_classify_run with
           (A := derived subj s dps (colorAbove (compare s)) ba la pa)
           (B := derived subj s dps (colorBelow (compare s)) bb lb pb);
         unfold st2; proj;
         [ set_solver
         | rewrite lookup_insert_ne by set_solver; by rewrite lookup_insert_eq
         | by rewrite lookup_insert_eq ] ].
    unfold push_plot, bind. unfold st2. proj.
    do 3 f_equal.
    + cbn [data derived app].
      rewrite (insert_insert_ne _ above below) by set_solver.
      by rewrite !insert_insert_eq.
    + by rewrite <- app_assoc.
  - rewrite !NoDup_cons, !not_elem_of_cons. clear -Hn1 Hn2 Hn3 Hm1 Hm2 Hm3 Hbb Hlb Hpb.
    rewrite !not_elem_of_union, !not_elem_of_singleton in Hbb, Hlb, Hpb.
    split_and!; try done; try apply not_elem_of_nil; try apply NoDup_nil_2;
      naive_solver.
  - rewrite !not_elem_of_union in Hbb, Hlb, Hpb.
    repeat (apply Forall_cons; split; [tauto|]). done.
Qed.

(** ** Specification-level vocabulary *)

(** Key and value of a point for an orientation: vertical reads the key from
    the first coordinate and the value from the second; horizontal swaps. *)
Definition key_of (isVertical : bool) (p : point) : Z :=
  if isVertical then d0 p else d1 p.

Definition value_of (isVertical : bool) (p : point) : Z :=
  if isVertical then d1 p else d0 p.

(** "above": the value is at least the lookup's value for the key, or the key
    is absent from the lookup. *)
Definition is_above (lookup : gmap Z Z) (isVertical : bool) (p : point) : Prop :=
  (∃ w, lookup !! key_of isVertical p = Some w ∧ w ≤ value_of isVertical p)
  ∨ lookup !! key_of isVertical p = None.

(** "below": the key is present and the value is strictly less. *)
Definition is_below (lookup : gmap Z Z) (isVertical : bool) (p : point) : Prop :=
  ∃ w, lookup !! key_of isVertical p = Some w ∧ value_of isVertical p < w.

#[global] Instance is_above_dec lookup v p : Decision (is_above lookup v p).
Proof.
  unfold is_above. destruct (lookup !! key_of v p) as [w|].
  - destruct (decide (w ≤ value_of v p)).
    + left. left. eauto.
    + right. intros [(w' & [= <-] & ?)|[=]]. done.
  - left. by right.
Defined.

#[global] Instance is_below_dec lookup v p : Decision (is_below lookup v p).
Proof.
  unfold is_below. destruct (lookup !! key_of v p) as [w|].
  - destruct (decide (value_of v p < w)).
    + left. eauto.
    + right. intros (w' & [= <-] & ?). done.
  - right. intros (w' & [=] & _).
Defined.

Lemma goes_above_is_above v cd p : goes_above v cd p ↔ is_above cd v p.
Proof.
  unfold goes_above, is_above, key_of, value_of, js_ge, hasOwnProperty.
  destruct (cd !! (if v then d0 p else d1 p)) as [w|] eqn:Hw.
  - rewrite bool_decide_eq_true_2 by eauto. cbn. rewrite orb_false_r.
    rewrite Is_true_true, Z.leb_le. naive_solver.
  - rewrite bool_decide_eq_false_2 by (by intros [? [=]]). cbn. naive_solver.
Qed.

Lemma not_goes_above_is_below v cd p : ¬ goes_above v cd p ↔ is_below cd v p.
Proof.
  rewrite goes_above_is_above. unfold is_above, is_below.
  destruct (cd !! key_of v p) as [w|]; [|naive_solver].
  split.
  - intros Hn. exists w. split; [done|].
    destruct (decide (value_of v p < w)); [done|]. destruct Hn. left.
    exists w. split; [done|lia].
  - intros (w1 & [= <-] & Hlt) [(w2 & [= <-] & Hle)|[=]]. lia.
Qed.

(** A point is above or below, never both. *)
Lemma is_below_not_above cd v p : is_below cd v p ↔ ¬ is_above cd v p.
Proof. by rewrite <- not_goes_above_is_below, goes_above_is_above. Qed.

(** ** [flattenData] *)

Lemma flattenData_step (v : bool) (flat : gmap Z Z) (p : point) :
  (if v then <[d0 p := d1 p]> flat else <[d1 p := d0 p]> flat)
  = <[key_of v p := value_of v p]> flat.
Proof. by destruct v. Qed.

Lemma flatten_fold_lookup (v : bool) (l : list point) (acc : gmap Z Z) (k : Z) :
  fold_left (λ (flat : gmap Z Z) (p : point),
               if v then <[d0 p := d1 p]> flat
               else <[d1 p := d0 p]> flat) l acc !! k
  = match last (value_of v <$> filter (λ p, key_of v p = k) l) with
    | Some w => Some w
    | None => acc !! k
    end.
Proof.
  revert acc. induction l as [|p l IH]; intros acc; [done|].
  cbn [fold_left]. rewrite IH, flattenData_step, filter_cons.
  case_decide as Hk.
  - rewrite fmap_cons, last_cons.
    destruct (last _); [done|]. subst k. by rewrite lookup_insert_eq.
  - destruct (last _); [done|]. by rewrite lookup_insert_ne.
Qed.

Lemma flattenData_lookup (pts : list point) (v : bool) (k : Z) :
  flattenData pts v !! k
  = last (value_of v <$> filter (λ p, key_of v p = k) pts).
Proof.
  unfold flattenData. rewrite flatten_fold_lookup, lookup_empty.
  by destruct (last _).
Qed.

(** C6: the lookup built by [flattenData] is a function of the point sequence
    and the orientation alone; its keys are exactly the keys that occur in the
    sequence, and the value kept for a key is the one of the last point
    carrying that key (last write wins). *)
Theorem flattenData_last_write_wins (points : list point) (isVertical : bool) :
  (∀ k, k ∈ dom (flattenData points isVertical)
        ↔ ∃ p, p ∈ points ∧ key_of isVertical p = k)
  ∧ (∀ k, flattenData points isVertical !! k
          = last (value_of isVertical
                    <$> filter (λ p, key_of isVertical p = k) points))
  ∧ (∀ before p after,
        points = before ++ p :: after →
        (∀ q, q ∈ after → key_of isVertical q ≠ key_of isVertical p) →
        flattenData points isVertical !! key_of isVertical p
        = Some (value_of isVertical p)).
Proof.
  pose proof (λ pts, flattenData_lookup pts isVertical) as Hlast.
  split_and!.
  - intros k. rewrite elem_of_dom, Hlast. split.
    + intros [w Hw]. apply last_Some in Hw as [l' Hl'].
      assert (w ∈ value_of isVertical
                    <$> filter (λ p, key_of isVertical p = k) points) as Hin.
      { rewrite Hl'. set_solver. }
      apply list_elem_of_fmap in Hin as (p & -> & Hp).
      apply list_elem_of_filter in Hp as [? ?]. eauto.
    + intros (p & Hp & Hk).
      assert (p ∈ filter (λ p, key_of isVertical p = k) points) as Hin
        by (by apply list_elem_of_filter).
      destruct (filter _ points) as [|q l'] eqn:Hf using rev_ind.
      * by apply elem_of_nil in Hin.
      * rewrite fmap_app. cbn. rewrite last_snoc. eauto.
  - apply Hlast.
  - intros before p after -> Hafter. rewrite Hlast.
    rewrite filter_app, filter_cons, decide_True by done.
    assert (filter (λ q, key_of isVertical q = key_of isVertical p) after = [])
      as ->.
    { destruct (filter _ after) as [|q l'] eqn:Hf; [done|].
      assert (q ∈ filter (λ q, key_of isVertical q = key_of isVertical p) after)
        as [Hq ?%Hafter]%list_elem_of_filter by (rewrite Hf; left).
      done. }
    rewrite fmap_app. apply last_snoc.
Qed.

(** ** The state after a partitioning run *)

(** Everything [compareSeries_run] establishes, with the two new series
    objects [A] (at [above]) and [B] (at [below]) named. *)
Record outcome (st : state) (subj : loc) (s r : series) (dps : datapoints_t)
    (st' : state) (above below : loc) (A B : series) (ob ol op : obj) : Prop := {
  out_bars : style_heap st !! bars s = Some ob;
  out_lines : style_heap st !! lines s = Some ol;
  out_points : style_heap st !! points s = Some op;
  out_above_fresh : above ∉ dom (series_heap st);
  out_below_fresh : below ∉ dom (series_heap st);
  out_distinct : above ≠ below;
  out_series : series_heap st' = <[below := B]> (<[above := A]> (series_heap st));
  out_A : A = set_data
                (filter (λ d, goes_above (isVertical_of ob)
                                (flattenData (data r) (isVertical_of ob)) d)
                        (data s))
                (derived subj s dps (colorAbove (compare s))
                         (bars A) (lines A) (points A));
  out_B : B = set_data
                (filter (λ d, ¬ goes_above (isVertical_of ob)
                                  (flattenData (data r) (isVertical_of ob)) d)
                        (data s))
                (derived subj s dps (colorBelow (compare s))
                         (bars B) (lines B) (points B));
  out_styles :
    style_heap st' =
      alter hide (points s) (alter hide (lines s) (alter hide (bars s)
        (<[points B := extend ∅ op]> (<[lines B := extend ∅ ol]>
          (<[bars B := extend ∅ ob]> (<[points A := extend ∅ op]>
            (<[lines A := extend ∅ ol]> (<[bars A := extend ∅ ob]>
              (style_heap st)))))))));
  out_nodup : NoDup [bars A; lines A; points A; bars B; lines B; points B];
  out_new : Forall (λ g, g ∉ dom (style_heap st))
                   [bars A; lines A; points A; bars B; lines B; points B];
  out_plot : plot_data st' = plot_data st ++ [above; below];
  out_counter : currentSeries st' = currentSeries st + 1;
}.

Lemma compareSeries_outcome st subj s ref r darg dps :
  partitioned st subj s ref r →
  ∃ st' above below A B ob ol op,
    compareSeries subj darg dps st = Some (tt, st')
    ∧ outcome st subj s r dps st' above below A B ob ol op.
Proof.
  intros Hpart.
  destruct (part_bars _ _ _ _ _ Hpart) as [ob Hb].
  destruct (part_lines _ _ _ _ _ Hpart) as [ol Hl].
  destruct (part_points _ _ _ _ _ Hpart) as [op Hp].
  destruct (compareSeries_run st subj s ref r darg dps ob ol op Hpart Hb Hl Hp)
    as (above & below & ba & la & pa & bb & lb & pb
        & Hrun & Ha & Hbl & Hne & Hnd & Hnew).
  cbn zeta in Hrun.
  eexists _, above, below, _, _, ob, ol, op. split; [exact Hrun|].
  by constructor.
Qed.

Section outcome_facts.
Context {st subj s r dps st' above below A B ob ol op}
          (Hout : outcome st subj s r dps st' above below A B ob ol op).

Lemma out_lookup_above : series_heap st' !! above = Some A.
  Proof.
    rewrite (out_series _ _ _ _ _ _ _ _ _ _ _ _ _ Hout).
    rewrite lookup_insert_ne by (symmetry; apply Hout).
    apply lookup_insert_eq.
  Qed.

Lemma out_lookup_below : series_heap st' !! below = Some B.
  Proof.
    rewrite (out_series _ _ _ _ _ _ _ _ _ _ _ _ _ Hout). apply lookup_insert_eq.
  Qed.

  (** Series objects that existed before the call are untouched. *)
Lemma out_lookup_old x :
    x ∈ dom (series_heap st) → series_heap st' !! x = series_heap st !! x.
  Proof.
    intros Hx. rewrite (out_series _ _ _ _ _ _ _ _ _ _ _ _ _ Hout).
    rewrite !lookup_insert_ne; [done| |]; intros ->;
      [by apply (out_above_fresh _ _ _ _ _ _ _ _ _ _ _ _ _ Hout)
      |by apply (out_below_fresh _ _ _ _ _ _ _ _ _ _ _ _ _ Hout)].
  Qed.

Lemma out_data_above :
    data A = filter (λ d, goes_above (isVertical_of ob)
                            (flattenData (data r) (isVertical_of ob)) d) (data s).
  Proof. by rewrite (out_A _ _ _ _ _ _ _ _ _ _ _ _ _ Hout). Qed.

Lemma out_data_below :
    data B = filter (λ d, ¬ goes_above (isVertical_of ob)
                              (flattenData (data r) (isVertical_of ob)) d) (data s).
  Proof. by rewrite (out_B _ _ _ _ _ _ _ _ _ _ _ _ _ Hout). Qed.

Lemma out_new_not_old g :
    g ∈ [bars A; lines A; points A; bars B; lines B; points B] →
    g ∉ dom (style_heap st).
  Proof.
    intros Hg. pose proof (out_new _ _ _ _ _ _ _ _ _ _ _ _ _ Hout) as Hnew.
    rewrite Forall_forall in Hnew. by apply Hnew.
  Qed.

  (** An option object that existed before and is not one of the subject's
      three is untouched. *)
Lemma out_style_frame g :
    g ∈ dom (style_heap st) →
    g ∉ [bars s; lines s; points s] →
    style_heap st' !! g = style_heap st !! g.
  Proof.
    intros Hg Hns. rewrite (out_styles _ _ _ _ _ _ _ _ _ _ _ _ _ Hout).
    rewrite !lookup_alter_ne by set_solver.
    rewrite !lookup_insert_ne; [done|intros <-..];
      (eapply out_new_not_old; [|exact Hg]); set_solver.
  Qed.

  (** The subject's three option objects only have [show] overwritten. *)
Lemma out_style_hidden g :
    g ∈ [bars s; lines s; points s] →
    style_heap st' !! g = hide <$> style_heap st !! g.
  Proof.
    intros Hg.
    assert (g ∈ dom (style_heap st)) as Hdom.
    { apply elem_of_dom.
      pose proof (out_bars _ _ _ _ _ _ _ _ _ _ _ _ _ Hout).
      pose proof (out_lines _ _ _ _ _ _ _ _ _ _ _ _ _ Hout).
      pose proof (out_points _ _ _ _ _ _ _ _ _ _ _ _ _ Hout).
      set_unfold in Hg. destruct Hg as [->|[->|[->|[]]]]; eauto. }
    rewrite (out_styles _ _ _ _ _ _ _ _ _ _ _ _ _ Hout).
    assert (∀ m : gmap loc obj,
      alter hide (points s) (alter hide (lines s) (alter hide (bars s) m)) !! g
      = hide <$> m !! g) as ->.
    { intros m. rewrite !lookup_alter.
      assert (∀ o : option obj, hide <$> (hide <$> o) = hide <$> o) as Hidem.
      { intros [o|]; [|done]. cbn. unfold hide. by rewrite insert_insert_eq. }
      set_unfold in Hg.
      repeat case_decide; rewrite ?Hidem; first [congruence | naive_solver]. }
    f_equal.
    rewrite !lookup_insert_ne; [done|intros <-..];
      (eapply out_new_not_old; [|exact Hdom]); set_solver.
  Qed.

  (** The six new option objects hold shallow copies of the subject's, taken
      before the subject was hidden. *)
Lemma out_style_copies :
    style_heap st' !! bars A = Some (extend ∅ ob)
    ∧ style_heap st' !! lines A = Some (extend ∅ ol)
    ∧ style_heap st' !! points A = Some (extend ∅ op)
    ∧ style_heap st' !! bars B = Some (extend ∅ ob)
    ∧ style_heap st' !! lines B = Some (extend ∅ ol)
    ∧ style_heap st' !! points B = Some (extend ∅ op).
  Proof.
    pose proof (out_nodup _ _ _ _ _ _ _ _ _ _ _ _ _ Hout) as Hnd.
    assert (∀ g, g ∈ [bars A; lines A; points A; bars B; lines B; points B] →
                 g ∉ [bars s; lines s; points s]) as Hsep.
    { intros g Hg Hs. apply (out_new_not_old g Hg), elem_of_dom.
      pose proof (out_bars _ _ _ _ _ _ _ _ _ _ _ _ _ Hout).
      pose proof (out_lines _ _ _ _ _ _ _ _ _ _ _ _ _ Hout).
      pose proof (out_points _ _ _ _ _ _ _ _ _ _ _ _ _ Hout).
      set_unfold in Hs. destruct Hs as [->|[->|[->|[]]]]; eauto. }
    rewrite (out_styles _ _ _ _ _ _ _ _ _ _ _ _ _ Hout).
    assert (∀ g, g ∈ [bars A; lines A; points A; bars B; lines B; points B] →
                 bars s ≠ g ∧ lines s ≠ g ∧ points s ≠ g) as Hne.
    { intros g Hg. specialize (Hsep g Hg).
      rewrite !not_elem_of_cons in Hsep. naive_solver. }
    rewrite !NoDup_cons, !not_elem_of_cons in Hnd. destruct_and!.
    split_and!.
    all: match goal with
         | |- _ !! ?g = _ =>
             destruct (Hne g) as (? & ? & ?); [in_list|]
         end.
    all: rewrite !lookup_alter_ne by done.
    all: rewrite ?(lookup_insert_ne _ _ _ _) by done.
    all: apply lookup_insert_eq.
Qed.
(** The option objects of [above], of [below] and of the subject are
    pairwise different objects. *)
Lemma out_new_not_subject g :
  g ∈ [bars A; lines A; points A; bars B; lines B; points B] →
  g ≠ bars s ∧ g ≠ lines s ∧ g ≠ points s.
Proof.
  intros Hg. pose proof (out_new_not_old g Hg) as Hnew.
  pose proof (out_bars _ _ _ _ _ _ _ _ _ _ _ _ _ Hout).
  pose proof (out_lines _ _ _ _ _ _ _ _ _ _ _ _ _ Hout).
  pose proof (out_points _ _ _ _ _ _ _ _ _ _ _ _ _ Hout).
  split_and!; intros ->; apply Hnew, elem_of_dom; eauto.
Qed.

Lemma out_style_apart g h :
  (g ∈ [bars A; lines A; points A]
   ∧ h ∈ [bars B; lines B; points B; bars s; lines s; points s])
  ∨ (g ∈ [bars B; lines B; points B]
     ∧ h ∈ [bars A; lines A; points A; bars s; lines s; points s]) →
  g ≠ h.
Proof.
  pose proof (out_nodup _ _ _ _ _ _ _ _ _ _ _ _ _ Hout) as Hnd.
  rewrite !NoDup_cons, !not_elem_of_cons in Hnd. destruct_and!.
  destruct (out_new_not_subject (bars A)) as (? & ? & ?); [in_list|].
  destruct (out_new_not_subject (lines A)) as (? & ? & ?); [in_list|].
  destruct (out_new_not_subject (points A)) as (? & ? & ?); [in_list|].
  destruct (out_new_not_subject (bars B)) as (? & ? & ?); [in_list|].
  destruct (out_new_not_subject (lines B)) as (? & ? & ?); [in_list|].
  destruct (out_new_not_subject (points B)) as (? & ? & ?); [in_list|].
  rewrite !elem_of_cons, !elem_of_nil.
  intros [[Hg Hh]|[Hg Hh]]; destruct_or!; try done; subst g h; done.
Qed.
End outcome_facts.

(** ** The scenario is a partitioning call *)

Lemma scenario_partitioned :
  partitioned Scenario.st0 2%positive Scenario.subject
              1%positive Scenario.reference.
Proof.
  constructor; vm_compute; by eauto.
Defined.

Lemma scenario_h_partitioned :
  partitioned Scenario.st_h 2%positive Scenario.subject_h
              1%positive Scenario.reference.
Proof.
  constructor; vm_compute; by eauto.
Defined.

Lemma scenario_v_partitioned :
  partitioned Scenario.st_v 2%positive Scenario.subject_h
              1%positive Scenario.reference.
Proof.
  constructor; vm_compute; by eauto.
Defined.

Lemma scenario_empty_partitioned :
  partitioned Scenario.st_empty 2%positive Scenario.subject_empty
              1%positive Scenario.reference.
Proof.
  constructor; vm_compute; by eauto.
Defined.

(** ** Classification *)

(** C1: when the hook partitions a subject, a point of the subject goes to
    [above] exactly when its value is [>=] the reference lookup's value for
    its key or its key is absent from the lookup, and to [below] exactly when
    its key is present and its value is strictly less. *)
Theorem compareSeries_classifies st subj s ref r darg dps :
  partitioned st subj s ref r →
  ∃ st' above below A B ob,
    compareSeries subj darg dps st = Some (tt, st')
    ∧ plot_data st' = plot_data st ++ [above; below]
    ∧ series_heap st' !! above = Some A
    ∧ series_heap st' !! below = Some B
    ∧ style_heap st !! bars s = Some ob
    ∧ let lookup := flattenData (data r) (isVertical_of ob) in
      data A = filter (is_above lookup (isVertical_of ob)) (data s)
      ∧ data B = filter (is_below lookup (isVertical_of ob)) (data s)
      ∧ ∀ p, p ∈ data s →
          (p ∈ data A ↔ is_above lookup (isVertical_of ob) p)
          ∧ (p ∈ data B ↔ is_below lookup (isVertical_of ob) p).
Proof.
  intros Hpart.
  destruct (compareSeries_outcome st subj s ref r darg dps Hpart)
    as (st' & above & below & A & B & ob & ol & op & Hrun & Hout).
  exists st', above, below, A, B, ob.
  assert (data A = filter (is_above (flattenData (data r) (isVertical_of ob))
                                    (isVertical_of ob)) (data s)) as HA.
  { rewrite (out_data_above Hout). apply list_filter_iff.
    intros p. apply goes_above_is_above. }
  assert (data B = filter (is_below (flattenData (data r) (isVertical_of ob))
                                    (isVertical_of ob)) (data s)) as HB.
  { rewrite (out_data_below Hout). apply list_filter_iff.
    intros p. apply not_goes_above_is_below. }
  split_and!; try done.
  - apply Hout.
  - apply (out_lookup_above Hout).
  - apply (out_lookup_below Hout).
  - apply Hout.
  - cbn zeta. split_and!; try done.
    intros p Hp. rewrite HA, HB, !list_elem_of_filter. naive_solver.
Qed.

Lemma compareSeries_classifies_witness :
  partitioned Scenario.st0 2%positive Scenario.subject
              1%positive Scenario.reference
  ∧ ∃ st' above below A B,
      compareSeries 2%positive [] Scenario.no_dps Scenario.st0 = Some (tt, st')
      ∧ plot_data st' = [1%positive; 2%positive; above; below]
      ∧ series_heap st' !! above = Some A
      ∧ series_heap st' !! below = Some B
      ∧ data A = [Point 1 5; Point 3 8; Point 4 0]
      ∧ data B = [Point 2 3].
Proof.
  split; [exact scenario_partitioned|].
  destruct (compareSeries_classifies _ _ _ _ _ [] Scenario.no_dps
              scenario_partitioned)
    as (st' & above & below & A & B & ob & Hrun & Hplot & HA & HB & Hob & Hd).
  assert (style_heap Scenario.st0 !! bars Scenario.subject
          = Some Scenario.style0) as Hs0 by (vm_compute; reflexivity).
  rewrite Hs0 in Hob. injection Hob as <-.
  destruct Hd as (HdA & HdB & _).
  exists st', above, below, A, B.
  split; [exact Hrun|]. split; [exact Hplot|].
  split; [exact HA|]. split; [exact HB|].
  split.
  - rewrite HdA. vm_compute. reflexivity.
  - rewrite HdB. vm_compute. reflexivity.
Defined.

(** C2: when the hook partitions a subject with N points, the two new series
    together hold N points, and each point of the subject is in exactly one
    of them. *)
Theorem compareSeries_counts st subj s ref r darg dps :
  partitioned st subj s ref r →
  ∃ st' above below A B,
    compareSeries subj darg dps st = Some (tt, st')
    ∧ plot_data st' = plot_data st ++ [above; below]
    ∧ series_heap st' !! above = Some A
    ∧ series_heap st' !! below = Some B
    ∧ (length (data A) + length (data B) = length (data s))%nat
    ∧ data A ++ data B ≡ₚ data s
    ∧ ∀ p, p ∈ data s → (p ∈ data A ∧ p ∉ data B) ∨ (p ∉ data A ∧ p ∈ data B).
Proof.
  intros Hpart.
  destruct (compareSeries_outcome st subj s ref r darg dps Hpart)
    as (st' & above & below & A & B & ob & ol & op & Hrun & Hout).
  exists st', above, below, A, B.
  assert (data A ++ data B ≡ₚ data s) as Hperm.
  { rewrite (out_data_above Hout), (out_data_below Hout).
    apply filter_app_complement. }
  split_and!; try done.
  - apply Hout.
  - apply (out_lookup_above Hout).
  - apply (out_lookup_below Hout).
  - by rewrite <- length_app, Hperm.
  - intros p Hp.
    rewrite (out_data_above Hout), (out_data_below Hout), !list_elem_of_filter.
    destruct (goes_above (isVertical_of ob)
                (flattenData (data r) (isVertical_of ob)) p); cbn; naive_solver.
Qed.

Lemma compareSeries_counts_witness :
  partitioned Scenario.st0 2%positive Scenario.subject
              1%positive Scenario.reference
  ∧ ∃ st' above below A B,
      compareSeries 2%positive [] Scenario.no_dps Scenario.st0 = Some (tt, st')
      ∧ series_heap st' !! above = Some A
      ∧ series_heap st' !! below = Some B
      ∧ (length (data A) + length (data B) = 4)%nat.
Proof.
  split; [exact scenario_partitioned|].
  destruct (compareSeries_counts _ _ _ _ _ [] Scenario.no_dps
              scenario_partitioned)
    as (st' & above & below & A & B & Hrun & _ & HA & HB & Hlen & _).
  exists st', above, below, A, B.
  split; [exact Hrun|]. split; [exact HA|]. split; [exact HB|]. exact Hlen.
Defined.

(** ** Order and round trip *)

(** The points of a sequence, each paired with its position (from [n] on). *)
Fixpoint number_from (n : nat) (l : list point) : list (nat * point) :=
  match l with
  | [] => []
  | p :: l' => (n, p) :: number_from (S n) l'
  end.

(** Ordering of numbered points by position. *)
Definition by_position (x y : nat * point) : Prop := (x.1 ≤ y.1)%nat.

#[global] Instance by_position_dec x y : Decision (by_position x y).
Proof. unfold by_position. apply _. Defined.

Lemma number_from_snd n l : (number_from n l).*2 = l.
Proof. revert n. induction l as [|p l IH]; intros n; cbn; by rewrite ?IH. Qed.

Lemma number_from_lookup n l i p :
  number_from n l !! i = Some (n + i, p)%nat ↔ l !! i = Some p.
Proof.
  revert n i. induction l as [|q l IH]; intros n [|i]; cbn; try done.
  - rewrite Nat.add_0_r. naive_solver.
  - rewrite <- (IH (S n)). by replace (n + S i)%nat with (S n + i)%nat by lia.
Qed.

Lemma number_from_lower n l x : x ∈ number_from n l → (n ≤ x.1)%nat.
Proof.
  revert n. induction l as [|p l IH]; intros n; cbn.
  - by intros ?%elem_of_nil.
  - intros [->|Hx%IH]%elem_of_cons; cbn; lia.
Qed.

Lemma filter_number_from (f : point → bool) n l :
  (filter (λ x, f x.2) (number_from n l)).*2 = filter (λ d, f d) l
  ∧ (filter (λ x, ¬ f x.2) (number_from n l)).*2 = filter (λ d, ¬ f d) l.
Proof.
  revert n. induction l as [|p l IH]; intros n; [done|].
  cbn [number_from]. rewrite !filter_bool_cons, !filter_negb_cons. cbn [snd].
  destruct (IH (S n)) as [IH1 IH2].
  destruct (f p); cbn; by rewrite ?IH1, ?IH2.
Qed.

(** Merging the two halves of a split by position gives back the numbered
    sequence. *)
Lemma merge_split_number_from (f : point → bool) n l :
  list_merge by_position
    (filter (λ x, f x.2) (number_from n l))
    (filter (λ x, ¬ f x.2) (number_from n l))
  = number_from n l.
Proof.
  revert n. induction l as [|p l IH]; intros n; [done|].
  cbn [number_from]. rewrite filter_bool_cons, filter_negb_cons. cbn [snd].
  specialize (IH (S n)).
  destruct (f p).
  - destruct (filter (λ x, ¬ f x.2) (number_from (S n) l)) as [|y t] eqn:Hf.
    + rewrite list_merge_nil_r in *. by rewrite IH.
    + rewrite list_merge_cons, decide_True; [by rewrite IH|].
      assert (y ∈ number_from (S n) l) as Hy%number_from_lower.
      { eapply (list_elem_of_filter (λ x, ¬ f x.2)). rewrite Hf. left. }
      unfold by_position. cbn. lia.
  - destruct (filter (λ x, f x.2) (number_from (S n) l)) as [|y t] eqn:Hf.
    + rewrite list_merge_nil_l in *. by rewrite IH.
    + rewrite list_merge_cons, decide_False; [by rewrite IH|].
      assert (y ∈ number_from (S n) l) as Hy%number_from_lower.
      { eapply (list_elem_of_filter (λ x, f x.2)). rewrite Hf. left. }
      unfold by_position. cbn. lia.
Qed.

(** C3: when the hook partitions a subject, each new series lists its points
    in the subject's order, and merging the two by original position gives
    back the subject's point sequence, element for element. *)
Theorem compareSeries_round_trip st subj s ref r darg dps :
  partitioned st subj s ref r →
  ∃ st' above below A B ta tb,
    compareSeries subj darg dps st = Some (tt, st')
    ∧ plot_data st' = plot_data st ++ [above; below]
    ∧ series_heap st' !! above = Some A
    ∧ series_heap st' !! below = Some B
    ∧ data A `sublist_of` data s
    ∧ data B `sublist_of` data s
    ∧ ta `sublist_of` number_from 0 (data s)
    ∧ tb `sublist_of` number_from 0 (data s)
    ∧ ta.*2 = data A
    ∧ tb.*2 = data B
    ∧ list_merge by_position ta tb = number_from 0 (data s)
    ∧ (list_merge by_position ta tb).*2 = data s.
Proof.
  intros Hpart.
  destruct (compareSeries_outcome st subj s ref r darg dps Hpart)
    as (st' & above & below & A & B & ob & ol & op & Hrun & Hout).
  set (f := goes_above (isVertical_of ob)
              (flattenData (data r) (isVertical_of ob))).
  exists st', above, below, A, B,
    (filter (λ x, f x.2) (number_from 0 (data s))),
    (filter (λ x, ¬ f x.2) (number_from 0 (data s))).
  pose proof (out_data_above Hout) as HA.
  pose proof (out_data_below Hout) as HB.
  destruct (filter_number_from f 0 (data s)) as [Hta Htb].
  split_and!; try done.
  - apply Hout.
  - apply (out_lookup_above Hout).
  - apply (out_lookup_below Hout).
  - rewrite HA. apply sublist_filter.
  - rewrite HB. apply sublist_filter.
  - apply sublist_filter.
  - apply sublist_filter.
  - by rewrite HA.
  - by rewrite HB.
  - apply merge_split_number_from.
  - by rewrite merge_split_number_from, number_from_snd.
Qed.

Lemma compareSeries_round_trip_witness :
  partitioned Scenario.st0 2%positive Scenario.subject
              1%positive Scenario.reference
  ∧ ∃ st' above below A B ta tb,
      compareSeries 2%positive [] Scenario.no_dps Scenario.st0 = Some (tt, st')
      ∧ series_heap st' !! above = Some A
      ∧ series_heap st' !! below = Some B
      ∧ ta.*2 = data A
      ∧ tb.*2 = data B
      ∧ list_merge by_position ta tb
        = [(0, Point 1 5); (1, Point 2 3); (2, Point 3 8); (3, Point 4 0)]%nat.
Proof.
  split; [exact scenario_partitioned|].
  destruct (compareSeries_round_trip _ _ _ _ _ [] Scenario.no_dps
              scenario_partitioned)
    as (st' & above & below & A & B & ta & tb & Hrun & _ & HA & HB
        & _ & _ & _ & _ & Hta & Htb & Hm & _).
  exists st', above, below, A, B, ta, tb.
  split; [exact Hrun|]. split; [exact HA|]. split; [exact HB|].
  split; [exact Hta|]. split; [exact Htb|]. exact Hm.
Defined.

(** ** The silent no-op paths *)

Lemma compareSeries_skip st subj s darg dps :
  series_heap st !! subj = Some s →
  enabled (compare s) = false
  ∨ seriesIndex (compare s) = Some (currentSeries st + 1)
  ∨ js_index (plot_data st) (seriesIndex (compare s)) = None →
  compareSeries subj darg dps st =
    Some (tt, {| series_heap := series_heap st;
                 style_heap := style_heap st;
                 plot_data := plot_data st;
                 currentSeries := currentSeries st + 1 |}).
Proof.
  intros Hs Hcase. unfold compareSeries.
  unfold bind at 1. unfold incr_currentSeries at 1.
  erewrite bind_Some; [| by apply read_series_Some ].
  destruct (enabled (compare s)) eqn:Hen; [|done]. cbn [negb orb].
  case_bool_decide as Hself; [done|].
  destruct Hcase as [?|[?|Hnone]]; [done..|].
  unfold getSeries, getData, bind, ret. proj. by rewrite Hnone.
Qed.

(** The guard holds back a call when comparison is disabled, when the index
    equals the counter value of this call, or when the index does not resolve:
    the hook then returns normally and changes nothing but the counter. *)
Lemma compareSeries_guard_noop st subj s darg dps :
  series_heap st !! subj = Some s →
  enabled (compare s) = false
  ∨ seriesIndex (compare s) = Some (currentSeries st + 1)
  ∨ js_index (plot_data st) (seriesIndex (compare s)) = None →
  ∃ st', compareSeries subj darg dps st = Some (tt, st')
    ∧ plot_data st' = plot_data st
    ∧ series_heap st' = series_heap st
    ∧ style_heap st' = style_heap st
    ∧ currentSeries st' = currentSeries st + 1.
Proof.
  intros Hs Hcase. eexists. split; [by eapply compareSeries_skip|]. done.
Qed.

(** A call is in step when the counter value it will see is the position of
    the subject in the series array. *)
Record in_step (st : state) (subj : loc) (pos : nat) : Prop := {
  step_position : plot_data st !! pos = Some subj;
  step_counter : currentSeries st + 1 = Z.of_nat pos;
}.

(** In step, a subject that names its own position is skipped, and one that
    names another position passes the self-comparison test. *)
Lemma in_step_self st subj pos s darg dps :
  in_step st subj pos →
  series_heap st !! subj = Some s →
  seriesIndex (compare s) = Some (Z.of_nat pos) →
  ∃ st', compareSeries subj darg dps st = Some (tt, st')
    ∧ plot_data st' = plot_data st
    ∧ series_heap st' = series_heap st
    ∧ style_heap st' = style_heap st.
Proof.
  intros [_ Hc] Hs Hi.
  destruct (compareSeries_guard_noop st subj s darg dps Hs)
    as (st' & ? & ? & ? & ? & _); [|by exists st'].
  right. left. by rewrite Hi, Hc.
Qed.

Lemma in_step_not_self st subj pos (s : series) :
  in_step st subj pos →
  seriesIndex (compare s) ≠ Some (Z.of_nat pos) →
  seriesIndex (compare s) ≠ Some (currentSeries st + 1).
Proof. intros [_ Hc] Hi. by rewrite Hc. Qed.

(** C4: the hook is meant to do nothing for a subject whose [seriesIndex] is
    its own position.  The test compares the index with the counter
    [currentSeries], which is set once and never reset.  On the first pass
    over the two series of [Scenario.st_self] the self-referencing series at
    position 1 is skipped and nothing changes.  On the next pass over the
    same two series the counter reads 3 at the call for position 1, the test
    fails to see the self-reference, and the series is compared with itself:
    it is hidden and two series are appended. *)
Theorem self_reference_partitioned_on_second_pass :
  plot_data Scenario.st_self !! 1%nat = Some 2%positive
  ∧ series_heap Scenario.st_self !! 2%positive = Some Scenario.subject_self
  ∧ seriesIndex (compare Scenario.subject_self) = Some 1
  ∧ Scenario.pass Scenario.st_self = Some (tt, Scenario.st_self_1)
  ∧ ∃ st2 A B o,
      Scenario.pass Scenario.st_self_1 = Some (tt, st2)
      ∧ plot_data st2 = [1%positive; 2%positive; 3%positive; 4%positive]
      ∧ series_heap st2 !! 3%positive = Some A
      ∧ series_heap st2 !! 4%positive = Some B
      ∧ originSeries A = Some 2%positive
      ∧ data A = [Point 1 5; Point 2 3]
      ∧ data B = []
      ∧ style_heap st2 !! bars Scenario.subject_self = Some o
      ∧ get o "show" = VBool false.
Proof.
  split_and!; try (vm_compute; reflexivity).
  destruct (Scenario.pass Scenario.st_self_1) as [[[] st2]|] eqn:H2;
    vm_compute in H2; [|done].
  injection H2 as <-.
  eexists _, _, _, _. split_and!; try reflexivity; vm_compute; reflexivity.
Qed.

(** The other two no-op paths on concrete calls: a series that names its own
    position, and an index past the end of the series array (or negative). *)
Example noop_self_reference :
  let st := {| series_heap := series_heap Scenario.st0;
               style_heap := style_heap Scenario.st0;
               plot_data := [2%positive; 1%positive];
               currentSeries := -1 |} in
  compareSeries 2%positive [] Scenario.no_dps st
  = Some (tt, {| series_heap := series_heap st; style_heap := style_heap st;
                 plot_data := plot_data st; currentSeries := 0 |}).
Proof. vm_compute. reflexivity. Qed.

Example noop_index_out_of_range :
  let far := {| enabled := true; seriesIndex := Some 7;
                colorAbove := VStr "red"; colorBelow := VStr "green" |} in
  let neg := {| enabled := true; seriesIndex := Some (-1);
                colorAbove := VStr "red"; colorBelow := VStr "green" |} in
  let st c := {| series_heap := <[2%positive := set_compare c Scenario.subject]>
                                  (series_heap Scenario.st0);
                 style_heap := style_heap Scenario.st0;
                 plot_data := plot_data Scenario.st0;
                 currentSeries := 0 |} in
  compareSeries 2%positive [] Scenario.no_dps (st far)
  = Some (tt, {| series_heap := series_heap (st far);
                 style_heap := style_heap (st far);
                 plot_data := plot_data (st far); currentSeries := 1 |})
  ∧ compareSeries 2%positive [] Scenario.no_dps (st neg)
  = Some (tt, {| series_heap := series_heap (st neg);
                 style_heap := style_heap (st neg);
                 plot_data := plot_data (st neg); currentSeries := 1 |}).
Proof. split; vm_compute; reflexivity. Qed.

(** ** Frame: what a partitioning call changes *)

(** C5: when the hook partitions a subject, the series array gains exactly
    the two new series, [above] then [below], at its end; every series object
    that existed keeps all its fields (the subject keeps its point sequence);
    the subject's three option objects get [show = false] and keep every other
    property; every other existing option object is untouched. *)
Theorem compareSeries_frame st subj s ref r darg dps :
  partitioned st subj s ref r →
  ∃ st' above below A B,
    compareSeries subj darg dps st = Some (tt, st')
    ∧ plot_data st' = plot_data st ++ [above; below]
    ∧ series_heap st' !! above = Some A
    ∧ series_heap st' !! below = Some B
    ∧ color A = colorAbove (compare s)
    ∧ color B = colorBelow (compare s)
    ∧ (above ∉ dom (series_heap st))
    ∧ (below ∉ dom (series_heap st))
    ∧ above ≠ below
    ∧ dom (series_heap st') = dom (series_heap st) ∪ {[above; below]}
    ∧ (∀ x, x ∈ dom (series_heap st) →
            series_heap st' !! x = series_heap st !! x)
    ∧ series_heap st' !! subj = Some s
    ∧ (∀ g, g ∈ [bars s; lines s; points s] →
          ∃ o, style_heap st !! g = Some o
             ∧ style_heap st' !! g = Some (<["show"%string := VBool false]> o))
    ∧ (∀ g, g ∈ dom (style_heap st) → g ∉ [bars s; lines s; points s] →
          style_heap st' !! g = style_heap st !! g).
Proof.
  intros Hpart.
  destruct (compareSeries_outcome st subj s ref r darg dps Hpart)
    as (st' & above & below & A & B & ob & ol & op & Hrun & Hout).
  exists st', above, below, A, B.
  split_and!; try done; try apply Hout.
  - apply (out_lookup_above Hout).
  - apply (out_lookup_below Hout).
  - by rewrite (out_A _ _ _ _ _ _ _ _ _ _ _ _ _ Hout).
  - by rewrite (out_B _ _ _ _ _ _ _ _ _ _ _ _ _ Hout).
  - rewrite (out_series _ _ _ _ _ _ _ _ _ _ _ _ _ Hout), !dom_insert_L.
    set_solver.
  - apply (out_lookup_old Hout).
  - rewrite (out_lookup_old Hout).
    + apply Hpart.
    + apply elem_of_dom. rewrite (part_subject _ _ _ _ _ Hpart). eauto.
  - intros g Hg. rewrite (out_style_hidden Hout g Hg).
    assert (is_Some (style_heap st !! g)) as [o Ho].
    { set_unfold in Hg. destruct Hg as [->|[->|[->|[]]]]; apply Hpart. }
    exists o. by rewrite Ho.
  - apply (out_style_frame Hout).
Qed.

Lemma compareSeries_frame_witness :
  partitioned Scenario.st0 2%positive Scenario.subject
              1%positive Scenario.reference
  ∧ ∃ st' above below,
      compareSeries 2%positive [] Scenario.no_dps Scenario.st0 = Some (tt, st')
      ∧ plot_data st' = [1%positive; 2%positive; above; below]
      ∧ series_heap st' !! 2%positive = Some Scenario.subject
      ∧ ∃ o, style_heap Scenario.st0 !! 4%positive = Some o
           ∧ style_heap st' !! 4%positive
             = Some (<["show"%string := VBool false]> o).
Proof.
  split; [exact scenario_partitioned|].
  destruct (compareSeries_frame _ _ _ _ _ [] Scenario.no_dps
              scenario_partitioned)
    as (st' & above & below & A & B & Hrun & Hplot & _ & _ & _ & _ & _ & _ & _
        & _ & Hold & Hsubj & Hhid & Hfr).
  exists st', above, below.
  split; [exact Hrun|]. split; [exact Hplot|]. split; [exact Hsubj|].
  apply (Hhid 4%positive). apply list_elem_of_here.
Defined.

(** ** Orientation *)

Lemma isVertical_of_false ob :
  isVertical_of ob = false
  ↔ truthy (get ob "show") = true ∧ truthy (get ob "horizontal") = true.
Proof.
  unfold isVertical_of.
  destruct (truthy (get ob "show")), (truthy (get ob "horizontal"));
    cbn; naive_solver.
Qed.

(** C7: the orientation is vertical unless the subject's [bars] are shown and
    horizontal; that one flag fixes key and value for the reference's points
    (when the lookup is built) and for the subject's points (when they are
    classified); the option objects of the reference play no part: whatever
    the style store holds besides the subject's [bars], the split is the
    same.  Vertical reads key = first coordinate, value = second; horizontal
    swaps them. *)
Theorem compareSeries_orientation st subj s ref r darg dps :
  partitioned st subj s ref r →
  ∃ st' above below A B ob,
    compareSeries subj darg dps st = Some (tt, st')
    ∧ series_heap st' !! above = Some A
    ∧ series_heap st' !! below = Some B
    ∧ style_heap st !! bars s = Some ob
    ∧ let v := isVertical_of ob in
      (v = false ↔ truthy (get ob "show") = true
                   ∧ truthy (get ob "horizontal") = true)
      ∧ (∀ p, key_of v p = (if v then d0 p else d1 p)
              ∧ value_of v p = (if v then d1 p else d0 p))
      ∧ ∃ lookup : gmap Z Z,
          (∀ k, lookup !! k
                = last (value_of v <$> filter (λ q, key_of v q = k) (data r)))
          ∧ data A = filter (is_above lookup v) (data s)
          ∧ data B = filter (is_below lookup v) (data s)
          ∧ ∀ styles2 : gmap loc obj,
              styles2 !! bars s = Some ob →
              is_Some (styles2 !! lines s) →
              is_Some (styles2 !! points s) →
              ∃ st2' above2 below2 A2 B2,
                compareSeries subj darg dps
                  {| series_heap := series_heap st; style_heap := styles2;
                     plot_data := plot_data st;
                     currentSeries := currentSeries st |}
                = Some (tt, st2')
                ∧ series_heap st2' !! above2 = Some A2
                ∧ series_heap st2' !! below2 = Some B2
                ∧ data A2 = data A
                ∧ data B2 = data B.
Proof.
  intros Hpart.
  destruct (compareSeries_outcome st subj s ref r darg dps Hpart)
    as (st' & above & below & A & B & ob & ol & op & Hrun & Hout).
  exists st', above, below, A, B, ob.
  split_and!; try done.
  - apply (out_lookup_above Hout).
  - apply (out_lookup_below Hout).
  - apply Hout.
  - cbn zeta. split; [apply isVertical_of_false|]. split; [done|].
    exists (flattenData (data r) (isVertical_of ob)).
    split_and!.
    + intros k. apply flattenData_lookup.
    + rewrite (out_data_above Hout). apply list_filter_iff. intros p.
      apply goes_above_is_above.
    + rewrite (out_data_below Hout). apply list_filter_iff. intros p.
      apply not_goes_above_is_below.
    + intros styles2 Hb2 Hl2 Hp2.
      set (st2 := {| series_heap := series_heap st; style_heap := styles2;
                     plot_data := plot_data st;
                     currentSeries := currentSeries st |}).
      assert (partitioned st2 subj s ref r) as Hpart2.
      { destruct Hpart. constructor; unfold st2; proj; eauto. }
      destruct (compareSeries_outcome st2 subj s ref r darg dps Hpart2)
        as (st2' & above2 & below2 & A2 & B2 & ob2 & ol2 & op2 & Hrun2 & Hout2).
      exists st2', above2, below2, A2, B2.
      assert (ob2 = ob) as ->.
      { pose proof (out_bars _ _ _ _ _ _ _ _ _ _ _ _ _ Hout2) as Hb.
        unfold st2 in Hb. cbn [style_heap] in Hb. congruence. }
      split_and!; try done.
      * apply (out_lookup_above Hout2).
      * apply (out_lookup_below Hout2).
      * by rewrite (out_data_above Hout), (out_data_above Hout2).
      * by rewrite (out_data_below Hout), (out_data_below Hout2).
Qed.

Lemma compareSeries_orientation_witness :
  partitioned Scenario.st_h 2%positive Scenario.subject_h
              1%positive Scenario.reference
  ∧ ∃ st' above below A B,
      compareSeries 2%positive [] Scenario.no_dps Scenario.st_h = Some (tt, st')
      ∧ series_heap st' !! above = Some A
      ∧ series_heap st' !! below = Some B
      ∧ data A = [Point 1 5; Point 3 4; Point 9 9]
      ∧ data B = [Point 2 7].
Proof.
  split; [exact scenario_h_partitioned|].
  destruct (compareSeries_orientation _ _ _ _ _ [] Scenario.no_dps
              scenario_h_partitioned)
    as (st' & above & below & A & B & ob & Hrun & HA & HB & Hob & Hd).
  assert (style_heap Scenario.st_h !! bars Scenario.subject_h
          = Some Scenario.horizontal_bars) as Hs0 by (vm_compute; reflexivity).
  rewrite Hs0 in Hob. injection Hob as <-.
  destruct Hd as (_ & _ & lookup & Hlk & HdA & HdB & _).
  assert (lookup = flattenData (data Scenario.reference) false) as ->.
  { apply map_eq. intros k. by rewrite Hlk, flattenData_lookup. }
  exists st', above, below, A, B.
  split; [exact Hrun|]. split; [exact HA|]. split; [exact HB|].
  split.
  - rewrite HdA. vm_compute. reflexivity.
  - rewrite HdB. vm_compute. reflexivity.
Defined.

(** The same raw tuples with a vertical subject split differently. *)
Example vertical_split_differs :
  ∃ st' above below A B,
    compareSeries 2%positive [] Scenario.no_dps Scenario.st_v = Some (tt, st')
    ∧ plot_data st' = [1%positive; 2%positive; above; below]
    ∧ series_heap st' !! above = Some A
    ∧ series_heap st' !! below = Some B
    ∧ data A = [Point 1 5; Point 2 7; Point 9 9]
    ∧ data B = [Point 3 4].
Proof.
  destruct (compareSeries 2%positive [] Scenario.no_dps Scenario.st_v)
    as [[[] st']|] eqn:Hrun;
    vm_compute in Hrun; [|done].
  injection Hrun as <-.
  by eexists _, 3%positive, 4%positive, _, _.
Qed.

(** ** Independence of the copies *)

(** [$.extend({}, o)] copies one level: a property that holds a reference is
    copied as that same reference. *)
Lemma extend_empty_lookup (o : obj) k v :
  extend ∅ o !! k = Some v ↔ o !! k = Some v ∧ v ≠ VUndef.
Proof.
  unfold extend. rewrite lookup_union_Some_raw, lookup_empty.
  rewrite map_lookup_filter_Some. cbn. naive_solver.
Qed.

Lemma extend_empty_get (o : obj) k : get (extend ∅ o) k = get o k.
Proof.
  unfold get. destruct (o !! k) as [v|] eqn:Hk.
  - destruct (decide (v = VUndef)) as [->|Hv].
    + destruct (extend ∅ o !! k) as [w|] eqn:Hw; [|done].
      apply extend_empty_lookup in Hw. naive_solver.
    + by rewrite (proj2 (extend_empty_lookup o k v)).
  - destruct (extend ∅ o !! k) as [w|] eqn:Hw; [|done].
    apply extend_empty_lookup in Hw. naive_solver.
Qed.

(** C8: the option objects of the two new series are copies in objects of
    their own: they read like the subject's did before the call, and writing
    any property of any option object of [above] (or any field of the series
    object [above]) leaves the option objects and series objects of [below]
    and of the subject as they were; and the same with [above] and [below]
    exchanged. *)
Theorem copies_are_independent st subj s ref r darg dps :
  partitioned st subj s ref r →
  ∃ st' above below A B ob ol op,
    compareSeries subj darg dps st = Some (tt, st')
    ∧ series_heap st' !! above = Some A
    ∧ series_heap st' !! below = Some B
    ∧ series_heap st' !! subj = Some s
    ∧ style_heap st !! bars s = Some ob
    ∧ style_heap st !! lines s = Some ol
    ∧ style_heap st !! points s = Some op
    ∧ (∃ cb cl cp,
         style_heap st' !! bars A = Some cb
         ∧ style_heap st' !! lines A = Some cl
         ∧ style_heap st' !! points A = Some cp
         ∧ ∀ k, get cb k = get ob k ∧ get cl k = get ol k ∧ get cp k = get op k)
    ∧ (∃ cb cl cp,
         style_heap st' !! bars B = Some cb
         ∧ style_heap st' !! lines B = Some cl
         ∧ style_heap st' !! points B = Some cp
         ∧ ∀ k, get cb k = get ob k ∧ get cl k = get ol k ∧ get cp k = get op k)
    ∧ NoDup [bars A; lines A; points A; bars B; lines B; points B]
    ∧ (∀ g k v, g ∈ [bars A; lines A; points A] →
         ∃ st'', write_style g k v st' = Some (tt, st'')
           ∧ series_heap st'' = series_heap st'
           ∧ ∀ h, h ∈ [bars B; lines B; points B; bars s; lines s; points s] →
                  style_heap st'' !! h = style_heap st' !! h)
    ∧ (∀ g k v, g ∈ [bars B; lines B; points B] →
         ∃ st'', write_style g k v st' = Some (tt, st'')
           ∧ series_heap st'' = series_heap st'
           ∧ ∀ h, h ∈ [bars A; lines A; points A; bars s; lines s; points s] →
                  style_heap st'' !! h = style_heap st' !! h)
    ∧ (∀ f, ∃ st'', modify_series above f st' = Some (tt, st'')
           ∧ series_heap st'' !! below = Some B
           ∧ series_heap st'' !! subj = Some s
           ∧ style_heap st'' = style_heap st')
    ∧ (∀ f, ∃ st'', modify_series below f st' = Some (tt, st'')
           ∧ series_heap st'' !! above = Some A
           ∧ series_heap st'' !! subj = Some s
           ∧ style_heap st'' = style_heap st').
Proof.
  intros Hpart.
  destruct (compareSeries_outcome st subj s ref r darg dps Hpart)
    as (st' & above & below & A & B & ob & ol & op & Hrun & Hout).
  exists st', above, below, A, B, ob, ol, op.
  pose proof (out_lookup_above Hout) as HA.
  pose proof (out_lookup_below Hout) as HB.
  pose proof (out_nodup _ _ _ _ _ _ _ _ _ _ _ _ _ Hout) as Hnd.
  pose proof (out_distinct _ _ _ _ _ _ _ _ _ _ _ _ _ Hout) as Hne.
  destruct (out_style_copies Hout) as (HbA & HlA & HpA & HbB & HlB & HpB).
  assert (subj ∈ dom (series_heap st)) as Hsd.
  { apply elem_of_dom. rewrite (part_subject _ _ _ _ _ Hpart). eauto. }
  assert (series_heap st' !! subj = Some s) as Hsubj.
  { rewrite (out_lookup_old Hout) by done. apply Hpart. }
  assert (above ≠ subj) as Has.
  { intros ->. by apply (out_above_fresh _ _ _ _ _ _ _ _ _ _ _ _ _ Hout). }
  assert (below ≠ subj) as Hbs.
  { intros ->. by apply (out_below_fresh _ _ _ _ _ _ _ _ _ _ _ _ _ Hout). }
  assert (∀ g, g ∈ [bars A; lines A; points A; bars B; lines B; points B] →
               is_Some (style_heap st' !! g)) as Hsome.
  { intros g. rewrite !elem_of_cons, elem_of_nil.
    intros Hg. destruct_or!; try done; subst g; eauto. }
  split; [exact Hrun|]. split; [exact HA|]. split; [exact HB|].
  split; [exact Hsubj|].
  split; [apply Hout|]. split; [apply Hout|]. split; [apply Hout|].
  split.
  { exists (extend ∅ ob), (extend ∅ ol), (extend ∅ op).
    split; [exact HbA|]. split; [exact HlA|]. split; [exact HpA|].
    intros k. by rewrite !extend_empty_get. }
  split.
  { exists (extend ∅ ob), (extend ∅ ol), (extend ∅ op).
    split; [exact HbB|]. split; [exact HlB|]. split; [exact HpB|].
    intros k. by rewrite !extend_empty_get. }
  split; [exact Hnd|].
  split.
  { intros g k v Hg.
    destruct (Hsome g) as [o Ho].
    { rewrite !elem_of_cons in *. tauto. }
    eexists. split; [by apply write_style_Some|]. proj. split; [done|].
    intros h Hh. apply lookup_insert_ne.
    apply (out_style_apart Hout). by left. }
  split.
  { intros g k v Hg.
    destruct (Hsome g) as [o Ho].
    { rewrite !elem_of_cons in *. tauto. }
    eexists. split; [by apply write_style_Some|]. proj. split; [done|].
    intros h Hh. apply lookup_insert_ne.
    apply (out_style_apart Hout). by right. }
  split.
  - intros f. eexists. split; [by apply modify_series_Some|]. proj.
    by rewrite !lookup_insert_ne.
  - intros f. eexists. split; [by apply modify_series_Some|]. proj.
    by rewrite !lookup_insert_ne.
Qed.

Lemma copies_are_independent_witness :
  partitioned Scenario.st0 2%positive Scenario.subject
              1%positive Scenario.reference
  ∧ ∃ st' above below A B st'',
      compareSeries 2%positive [] Scenario.no_dps Scenario.st0 = Some (tt, st')
      ∧ series_heap st' !! above = Some A
      ∧ series_heap st' !! below = Some B
      ∧ write_style (bars A) "show" (VStr "changed") st' = Some (tt, st'')
      ∧ style_heap st'' !! bars B = style_heap st' !! bars B
      ∧ style_heap st'' !! 4%positive = style_heap st' !! 4%positive.
Proof.
  split; [exact scenario_partitioned|].
  destruct (copies_are_independent _ _ _ _ _ [] Scenario.no_dps
              scenario_partitioned)
    as (st' & above & below & A & B & ob & ol & op & Hrun & HA & HB & _ & _ & _
        & _ & _ & _ & _ & Hmut & _).
  destruct (Hmut (bars A) "show"%string (VStr "changed"))
    as (st'' & Hw & _ & Hsame); [apply list_elem_of_here|].
  exists st', above, below, A, B, st''.
  split; [exact Hrun|]. split; [exact HA|]. split; [exact HB|].
  split; [exact Hw|].
  split; apply Hsame; in_list.
Defined.

(** ** The new series at creation *)

(** C9: a series made by [copySeries] starts with no points, a [null] label,
    the colour it was given, a reference to the series it was copied from and
    comparison disabled; the two series of a partitioning call are made with
    [colorAbove] and [colorBelow]; and calling the hook on either of them
    later changes nothing. *)
Theorem derived_series_attributes st subj s ref r darg dps :
  partitioned st subj s ref r →
  (∀ col, ∃ c st1 C,
      copySeries subj dps col st = Some (c, st1)
      ∧ (c ∉ dom (series_heap st))
      ∧ series_heap st1 !! c = Some C
      ∧ data C = []
      ∧ label C = VNull
      ∧ color C = col
      ∧ originSeries C = Some subj
      ∧ enabled (compare C) = false)
  ∧ ∃ st' above below A B,
      compareSeries subj darg dps st = Some (tt, st')
      ∧ plot_data st' = plot_data st ++ [above; below]
      ∧ series_heap st' !! above = Some A
      ∧ series_heap st' !! below = Some B
      ∧ label A = VNull ∧ label B = VNull
      ∧ color A = colorAbove (compare s)
      ∧ color B = colorBelow (compare s)
      ∧ originSeries A = Some subj ∧ originSeries B = Some subj
      ∧ enabled (compare A) = false ∧ enabled (compare B) = false
      ∧ ∀ st2 x darg2 dps2,
          x = above ∨ x = below →
          series_heap st2 !! x = series_heap st' !! x →
          ∃ st3, compareSeries x darg2 dps2 st2 = Some (tt, st3)
            ∧ plot_data st3 = plot_data st2
            ∧ series_heap st3 = series_heap st2
            ∧ style_heap st3 = style_heap st2.
Proof.
  intros Hpart. split.
  - intros col.
    destruct (part_bars _ _ _ _ _ Hpart) as [ob Hb].
    destruct (part_lines _ _ _ _ _ Hpart) as [ol Hl].
    destruct (part_points _ _ _ _ _ Hpart) as [op Hp].
    destruct (copySeries_run st subj s dps col ob ol op)
      as (c & b & l & p & Hrun & Hc & _); [apply Hpart|done..|].
    eexists c, _, _. split; [exact Hrun|]. proj.
    split; [done|]. split; [apply lookup_insert_eq|]. done.
  - destruct (compareSeries_outcome st subj s ref r darg dps Hpart)
      as (st' & above & below & A & B & ob & ol & op & Hrun & Hout).
    exists st', above, below, A, B.
    pose proof (out_lookup_above Hout) as HA.
    pose proof (out_lookup_below Hout) as HB.
    pose proof (out_A _ _ _ _ _ _ _ _ _ _ _ _ _ Hout) as HeA.
    pose proof (out_B _ _ _ _ _ _ _ _ _ _ _ _ _ Hout) as HeB.
    split_and!; try done; try apply Hout;
      try (by rewrite HeA); try (by rewrite HeB).
    intros st2 x darg2 dps2 Hx Hsame.
    assert (∃ X, series_heap st2 !! x = Some X ∧ enabled (compare X) = false)
      as (X & HX & Hen).
    { destruct Hx as [->| ->]; rewrite Hsame; eexists; split; try done.
      - by rewrite HeA.
      - by rewrite HeB. }
    eexists. split; [eapply compareSeries_skip; eauto|]. done.
Qed.

Lemma derived_series_attributes_witness :
  partitioned Scenario.st0 2%positive Scenario.subject
              1%positive Scenario.reference
  ∧ ∃ st' above below A B st3,
      compareSeries 2%positive [] Scenario.no_dps Scenario.st0 = Some (tt, st')
      ∧ series_heap st' !! above = Some A
      ∧ series_heap st' !! below = Some B
      ∧ label A = VNull
      ∧ color A = VStr "red"
      ∧ color B = VStr "green"
      ∧ originSeries A = Some 2%positive
      ∧ compareSeries above [] Scenario.no_dps st' = Some (tt, st3)
      ∧ plot_data st3 = plot_data st'.
Proof.
  split; [exact scenario_partitioned|].
  destruct (derived_series_attributes _ _ _ _ _ [] Scenario.no_dps
              scenario_partitioned)
    as (_ & st' & above & below & A & B & Hrun & _ & HA & HB & HlA & _ & HcA
        & HcB & HoA & _ & _ & _ & Hlater).
  destruct (Hlater st' above [] Scenario.no_dps) as (st3 & Hrun3 & Hp3 & _);
    [by left|done|].
  exists st', above, below, A, B, st3. split_and!; done.
Defined.

(** ** A subject without points *)

(** C10: a subject with comparison enabled and a valid, distinct reference but
    no points is still partitioned: two new series with no points are pushed
    onto the series array and the subject's [bars], [lines] and [points] get
    [show = false]. *)
Theorem empty_subject_still_partitioned st subj s ref r darg dps :
  partitioned st subj s ref r →
  data s = [] →
  ∃ st' above below A B,
    compareSeries subj darg dps st = Some (tt, st')
    ∧ plot_data st' = plot_data st ++ [above; below]
    ∧ length (plot_data st') = (length (plot_data st) + 2)%nat
    ∧ (above ∉ dom (series_heap st))
    ∧ (below ∉ dom (series_heap st))
    ∧ above ≠ below
    ∧ series_heap st' !! above = Some A
    ∧ series_heap st' !! below = Some B
    ∧ data A = []
    ∧ data B = []
    ∧ ∀ g, g ∈ [bars s; lines s; points s] →
        ∃ o, style_heap st' !! g = Some o ∧ get o "show" = VBool false.
Proof.
  intros Hpart Hempty.
  destruct (compareSeries_outcome st subj s ref r darg dps Hpart)
    as (st' & above & below & A & B & ob & ol & op & Hrun & Hout).
  exists st', above, below, A, B.
  split_and!; try done; try apply Hout.
  - rewrite (out_plot _ _ _ _ _ _ _ _ _ _ _ _ _ Hout), length_app. done.
  - apply (out_lookup_above Hout).
  - apply (out_lookup_below Hout).
  - by rewrite (out_data_above Hout), Hempty.
  - by rewrite (out_data_below Hout), Hempty.
  - intros g Hg. rewrite (out_style_hidden Hout g Hg).
    assert (is_Some (style_heap st !! g)) as [o Ho].
    { set_unfold in Hg. destruct Hg as [->|[->|[->|[]]]]; apply Hpart. }
    exists (hide o). rewrite Ho. split; [done|].
    unfold get, hide. by rewrite lookup_insert_eq.
Qed.

Lemma empty_subject_still_partitioned_witness :
  partitioned Scenario.st_empty 2%positive Scenario.subject_empty
              1%positive Scenario.reference
  ∧ data Scenario.subject_empty = []
  ∧ ∃ st' above below A B,
      compareSeries 2%positive [] Scenario.no_dps Scenario.st_empty
      = Some (tt, st')
      ∧ plot_data st' = [1%positive; 2%positive; above; below]
      ∧ series_heap st' !! above = Some A
      ∧ series_heap st' !! below = Some B
      ∧ data A = []
      ∧ data B = [].
Proof.
  split; [exact scenario_empty_partitioned|]. split; [reflexivity|].
  destruct (empty_subject_still_partitioned _ _ _ _ _ [] Scenario.no_dps
              scenario_empty_partitioned eq_refl)
    as (st' & above & below & A & B & Hrun & Hplot & _ & _ & _ & _ & HA & HB
        & HdA & HdB & _).
  exists st', above, below, A, B. split_and!; done.
Defined.

(** * Further properties of the plugin's functions *)

(** ** [getSeries] *)

(** X1: [getSeries] never changes the plot; it returns the series at index
    [i] exactly when [i] is an integer within [0 .. length-1] of the series
    array, and [false] for a missing, negative or too large index. *)
Theorem getSeries_bounds (st : state) (i : option Z) :
  ∃ res,
    getSeries i st = Some (res, st)
    ∧ (∀ l, res = Some l
            ↔ ∃ n : nat, i = Some (Z.of_nat n) ∧ plot_data st !! n = Some l)
    ∧ (res = None
       ↔ i = None
         ∨ ∃ z, i = Some z ∧ (z < 0 ∨ Z.of_nat (length (plot_data st)) ≤ z)).
Proof.
  exists (js_index (plot_data st) i). split; [done|].
  unfold js_index. destruct i as [z|].
  - destruct (Z.leb_spec 0 z) as [Hz|Hz].
    + split.
      * intros l. split.
        -- intros Hl. exists (Z.to_nat z). by rewrite Z2Nat.id.
        -- intros (n & [= ->] & Hn). by rewrite Nat2Z.id.
      * rewrite lookup_ge_None. split.
        -- intros Hlen. right. exists z. split; [done|]. lia.
        -- intros [[=]|(z' & [= <-] & [?|?])]; lia.
    + split.
      * intros l. split; [done|]. intros (n & [= ->] & _). lia.
      * split; [|done]. intros _. right. exists z. split; [done|]. lia.
  - split.
    + intros l. split; [done|]. by intros (n & [=] & _).
    + split; [|done]. intros _. by left.
Qed.

(** ** The hook on a well-formed store *)

(** The three option objects of a series. *)
Definition groups (s : series) : list loc := [bars s; lines s; points s].

(** A store is well formed when every entry of the series array is a series
    object and every series object has its three option objects. *)
Record well_formed (st : state) : Prop := {
  wf_plot : ∀ l, l ∈ plot_data st → is_Some (series_heap st !! l);
  wf_groups : ∀ l s g, series_heap st !! l = Some s → g ∈ groups s →
                       is_Some (style_heap st !! g);
}.

(** The guard of [compareSeries] holds the call back. *)
Definition skips (st : state) (s : series) : Prop :=
  enabled (compare s) = false
  ∨ seriesIndex (compare s) = Some (currentSeries st + 1)
  ∨ js_index (plot_data st) (seriesIndex (compare s)) = None.

#[global] Instance skips_dec st s : Decision (skips st s).
Proof. unfold skips. apply _. Defined.

Lemma js_index_elem_of {A} (arr : list A) i x :
  js_index arr i = Some x → x ∈ arr.
Proof.
  unfold js_index. destruct i as [z|]; [|done].
  destruct (0 <=? z); [|done]. apply list_elem_of_lookup_2.
Qed.

Lemma not_skips_partitioned st subj s :
  well_formed st →
  series_heap st !! subj = Some s →
  ¬ skips st s →
  ∃ ref r, partitioned st subj s ref r.
Proof.
  intros [Hplot Hgroups] Hs Hns. unfold skips in Hns.
  destruct (js_index (plot_data st) (seriesIndex (compare s))) as [ref|] eqn:Hi;
    [|tauto].
  destruct (Hplot ref) as [r Hr]; [by eapply js_index_elem_of|].
  exists ref, r. constructor; try done.
  - destruct (enabled (compare s)); [done|tauto].
  - tauto.
  - apply (Hgroups subj s); [done|]. unfold groups. in_list.
  - apply (Hgroups subj s); [done|]. unfold groups. in_list.
  - apply (Hgroups subj s); [done|]. unfold groups. in_list.
Qed.




Lemma scenario_well_formed : well_formed Scenario.st0.
Proof.
  constructor.
  - intros l Hl. change (plot_data Scenario.st0) with [1%positive; 2%positive] in Hl.
    rewrite !elem_of_cons, elem_of_nil in Hl.
    destruct_or!; try done; subst l; vm_compute; eauto.
  - intros l s g Hl Hg.
    unfold Scenario.st0 in Hl. cbn [series_heap] in Hl.
    rewrite lookup_insert_Some, lookup_singleton_Some in Hl.
    unfold groups in Hg. rewrite !elem_of_cons, elem_of_nil in Hg.
    destruct Hl as [[<- <-]|(_ & <- & <-)];
      destruct_or!; try done; subst g; vm_compute; eauto.
Defined.


(** X3: on a well-formed store a call of the hook leaves the series array as
    it is exactly when comparison is disabled for the subject, or its
    [seriesIndex] equals the counter value of the call, or [seriesIndex] does
    not resolve; then nothing but the counter changes.  In every other case
    the array grows by exactly two new series.  Either way the counter
    advances by one. *)
Theorem hook_skips_exactly_when st subj s darg dps :
  well_formed st →
  series_heap st !! subj = Some s →
  ∃ st',
    compareSeries subj darg dps st = Some (tt, st')
    ∧ currentSeries st' = currentSeries st + 1
    ∧ (plot_data st' = plot_data st ↔ skips st s)
    ∧ (skips st s →
         series_heap st' = series_heap st ∧ style_heap st' = style_heap st)
    ∧ (¬ skips st s →
         ∃ above below,
           plot_data st' = plot_data st ++ [above; below]
           ∧ above ≠ below
           ∧ (above ∉ dom (series_heap st))
           ∧ (below ∉ dom (series_heap st))
           ∧ dom (series_heap st') = dom (series_heap st) ∪ {[above; below]}).
Proof.
  intros Hwf Hs. destruct (decide (skips st s)) as [Hskip|Hgo].
  - eexists. split; [by apply (compareSeries_skip st subj s)|]. proj.
    split; [done|]. split; [done|]. split; [done|]. done.
  - destruct (not_skips_partitioned st subj s Hwf Hs Hgo) as (ref & r & Hpart).
    destruct (compareSeries_outcome st subj s ref r darg dps Hpart)
      as (st' & above & below & A & B & ob & ol & op & Hrun & Hout).
    exists st'. split; [done|].
    pose proof (out_plot _ _ _ _ _ _ _ _ _ _ _ _ _ Hout) as Hplot.
    split; [apply Hout|]. split; [|split; [done|]].
    + split; [|done]. intros Heq. rewrite Heq in Hplot.
      apply (f_equal length) in Hplot. rewrite length_app in Hplot.
      cbn in Hplot. lia.
    + intros _. exists above, below.
      split; [done|]. split; [apply Hout|]. split; [apply Hout|].
      split; [apply Hout|].
      rewrite (out_series _ _ _ _ _ _ _ _ _ _ _ _ _ Hout), !dom_insert_L.
      set_solver.
Qed.

Lemma hook_skips_exactly_when_witness :
  well_formed Scenario.st0
  ∧ series_heap Scenario.st0 !! 2%positive = Some Scenario.subject
  ∧ ∃ st', compareSeries 2%positive [] Scenario.no_dps Scenario.st0
           = Some (tt, st')
         ∧ currentSeries st' = 1.
Proof.
  split; [exact scenario_well_formed|]. split; [vm_compute; reflexivity|].
  destruct (hook_skips_exactly_when Scenario.st0 2%positive Scenario.subject
              [] Scenario.no_dps scenario_well_formed)
    as (st' & Hrun & Hc & _); [vm_compute; reflexivity|].
  exists st'. split; [exact Hrun|exact Hc].
Defined.

(** ** Calls in step with the series array *)

(** X4: the hook only ever appends to the series array, and a call made in
    step (the counter value it sees is the subject's index) leaves the counter
    in step for the next index: a pass over the array that starts in step
    stays in step, the appended series included. *)
Theorem hook_stays_in_step st subj pos s darg dps :
  well_formed st →
  in_step st subj pos →
  series_heap st !! subj = Some s →
  ∃ st',
    compareSeries subj darg dps st = Some (tt, st')
    ∧ plot_data st `prefix_of` plot_data st'
    ∧ plot_data st' !! pos = Some subj
    ∧ ∀ next, plot_data st' !! S pos = Some next → in_step st' next (S pos).
Proof.
  intros Hwf [Hpos Hctr] Hs.
  assert (∃ st', compareSeries subj darg dps st = Some (tt, st')
            ∧ currentSeries st' = currentSeries st + 1
            ∧ plot_data st `prefix_of` plot_data st') as (st' & Hrun & Hc & Hpre).
  { destruct (decide (skips st s)) as [Hskip|Hgo].
    - eexists. split; [by apply (compareSeries_skip st subj s)|]. by proj.
    - destruct (not_skips_partitioned st subj s Hwf Hs Hgo) as (ref & r & Hpart).
      destruct (compareSeries_outcome st subj s ref r darg dps Hpart)
        as (st' & above & below & A & B & ob & ol & op & Hrun & Hout).
      exists st'. split; [done|]. split; [apply Hout|].
      rewrite (out_plot _ _ _ _ _ _ _ _ _ _ _ _ _ Hout). by apply prefix_app_r. }
  exists st'. split; [done|]. split; [done|]. split.
  - by eapply prefix_lookup_Some.
  - intros next Hnext. constructor; [done|]. rewrite Hc, Hctr. lia.
Qed.

Lemma scenario_in_step : in_step Scenario.st0 2%positive 1.
Proof. constructor; vm_compute; reflexivity. Defined.

Lemma hook_stays_in_step_witness :
  well_formed Scenario.st0
  ∧ in_step Scenario.st0 2%positive 1
  ∧ series_heap Scenario.st0 !! 2%positive = Some Scenario.subject
  ∧ ∃ st', compareSeries 2%positive [] Scenario.no_dps Scenario.st0
           = Some (tt, st')
         ∧ plot_data st' !! 1%nat = Some 2%positive.
Proof.
  split; [exact scenario_well_formed|]. split; [exact scenario_in_step|].
  split; [vm_compute; reflexivity|].
  destruct (hook_stays_in_step Scenario.st0 2%positive 1 Scenario.subject
              [] Scenario.no_dps scenario_well_formed scenario_in_step)
    as (st' & Hrun & _ & Hpos & _); [vm_compute; reflexivity|].
  exists st'. split; [exact Hrun|exact Hpos].
Defined.

(** X5: in step, a subject whose [seriesIndex] is its own index in the series
    array is skipped: the call returns and changes neither the array nor any
    object; and a subject whose [seriesIndex] is another index passes the
    self-comparison test. *)
Theorem in_step_own_position_skipped st subj pos s darg dps :
  in_step st subj pos →
  series_heap st !! subj = Some s →
  (seriesIndex (compare s) = Some (Z.of_nat pos) →
     ∃ st', compareSeries subj darg dps st = Some (tt, st')
       ∧ plot_data st' = plot_data st
       ∧ series_heap st' = series_heap st
       ∧ style_heap st' = style_heap st)
  ∧ (seriesIndex (compare s) ≠ Some (Z.of_nat pos) →
     seriesIndex (compare s) ≠ Some (currentSeries st + 1)).
Proof.
  intros [Hpos Hctr] Hs. split.
  - intros Hi. eexists. split.
    + apply (compareSeries_skip st subj s); [done|].
      right. left. by rewrite Hi, Hctr.
    + by proj.
  - intros Hi. by rewrite Hctr.
Qed.

(** The plot of [Scenario.st_self] after the call for position 0 of its first
    pass. *)
Definition st_self_0 : state :=
  {| series_heap := series_heap Scenario.st_self;
     style_heap := style_heap Scenario.st_self;
     plot_data := plot_data Scenario.st_self;
     currentSeries := 0 |}.

Lemma in_step_own_position_skipped_witness :
  in_step st_self_0 2%positive 1
  ∧ series_heap st_self_0 !! 2%positive = Some Scenario.subject_self
  ∧ ∃ st', compareSeries 2%positive [] Scenario.no_dps st_self_0
           = Some (tt, st')
         ∧ plot_data st' = plot_data st_self_0.
Proof.
  set (st := st_self_0).
  assert (in_step st 2%positive 1) as Hstep
    by (constructor; vm_compute; reflexivity).
  assert (series_heap st !! 2%positive = Some Scenario.subject_self) as Hs
    by (vm_compute; reflexivity).
  split; [exact Hstep|]. split; [exact Hs|].
  destruct (in_step_own_position_skipped st 2%positive 1 Scenario.subject_self
              [] Scenario.no_dps Hstep Hs) as [Hself _].
  destruct Hself as (st' & Hrun & Hplot & _); [reflexivity|].
  exists st'. split; [exact Hrun|exact Hplot].
Defined.

(** ** More on [flattenData] *)

(** X6: flattening a concatenation is flattening the parts and letting the
    entries of the later part win: later points overwrite earlier ones key by
    key, and keys the later part does not have keep their earlier value. *)
Theorem flattenData_app (l1 l2 : list point) (isVertical : bool) :
  flattenData (l1 ++ l2) isVertical
  = flattenData l2 isVertical ∪ flattenData l1 isVertical.
Proof.
  apply map_eq. intros k.
  rewrite lookup_union, !flattenData_lookup, filter_app, fmap_app, last_app.
  destruct (last (value_of isVertical <$> filter _ l2));
    destruct (last (value_of isVertical <$> filter _ l1)); done.
Qed.

Lemma flattenData_snoc (l : list point) (p : point) (v : bool) :
  flattenData (l ++ [p]) v = <[key_of v p := value_of v p]> (flattenData l v).
Proof.
  unfold flattenData. rewrite fold_left_app. cbn [fold_left].
  apply flattenData_step.
Qed.

Lemma flattenData_lookup_None (l : list point) (v : bool) (k : Z) :
  (∀ q, q ∈ l → key_of v q ≠ k) → flattenData l v !! k = None.
Proof.
  intros Hno. rewrite flattenData_lookup.
  destruct (filter (λ p, key_of v p = k) l) as [|q l'] eqn:Hf; [done|].
  assert (q ∈ filter (λ p, key_of v p = k) l) as [Hq Hin]%list_elem_of_filter
    by (rewrite Hf; left).
  by destruct (Hno q Hin).
Qed.

Lemma flattenData_lookup_NoDup (l : list point) (v : bool) (p : point) :
  NoDup (key_of v <$> l) → p ∈ l →
  flattenData l v !! key_of v p = Some (value_of v p).
Proof.
  induction l as [|q l IH] using rev_ind; [by intros _ ?%elem_of_nil|].
  rewrite fmap_app, NoDup_app. cbn. intros (Hnd & Hdis & _).
  rewrite elem_of_app, list_elem_of_singleton, flattenData_snoc.
  intros [Hp| ->]; [|by rewrite lookup_insert_eq].
  rewrite lookup_insert_ne; [by apply IH|].
  intros Heq. apply (Hdis (key_of v p)).
  - apply list_elem_of_fmap. eauto.
  - rewrite Heq. left.
Qed.

(** X7: the lookup never has more entries than there are points, and when the
    keys of the points are pairwise different nothing is lost: it has one
    entry per point and returns each point's value under that point's key. *)
Theorem flattenData_distinct_keys (l : list point) (isVertical : bool) :
  (size (flattenData l isVertical) ≤ length l)%nat
  ∧ (NoDup (key_of isVertical <$> l) →
       size (flattenData l isVertical) = length l
       ∧ ∀ p, p ∈ l →
           flattenData l isVertical !! key_of isVertical p
           = Some (value_of isVertical p)).
Proof.
  split.
  - induction l as [|q l IH] using rev_ind; [done|].
    rewrite flattenData_snoc, length_app. cbn.
    rewrite map_size_insert.
    destruct (flattenData l isVertical !! key_of isVertical q); cbn; lia.
  - intros Hnd. split; [|intros p; by apply flattenData_lookup_NoDup].
    induction l as [|q l IH] using rev_ind; [done|].
    rewrite fmap_app, NoDup_app in Hnd. destruct Hnd as (Hnd & Hdis & _).
    rewrite flattenData_snoc, length_app. cbn.
    rewrite map_size_insert_None, IH by
      first [done | apply flattenData_lookup_None; intros x Hx Heq;
                    apply (Hdis (key_of isVertical x));
                    [apply list_elem_of_fmap; eauto | rewrite Heq; left]].
    lia.
Qed.

Lemma flattenData_distinct_keys_witness :
  NoDup (key_of true <$> [Point 1 5; Point 2 4; Point 3 7])
  ∧ size (flattenData [Point 1 5; Point 2 4; Point 3 7] true) = 3%nat
  ∧ flattenData [Point 1 5; Point 2 4; Point 3 7] true !! 2 = Some 4.
Proof.
  assert (NoDup (key_of true <$> [Point 1 5; Point 2 4; Point 3 7])) as Hnd.
  { cbn. rewrite !NoDup_cons, !not_elem_of_cons.
    split_and!; try done; try apply not_elem_of_nil; apply NoDup_nil_2. }
  split; [exact Hnd|].
  destruct (flattenData_distinct_keys [Point 1 5; Point 2 4; Point 3 7] true)
    as [_ Hall].
  destruct (Hall Hnd) as [Hsize Hlook].
  split; [exact Hsize|].
  apply (Hlook (Point 2 4)). in_list.
Defined.

(** A point with its two coordinates exchanged. *)
Definition transpose (p : point) : point := {| d0 := d1 p; d1 := d0 p |}.

(** X8: the horizontal reading is the vertical reading of the transposed
    data: flattening transposed points under the other orientation gives the
    same lookup, and the loop's test sends a transposed subject point to the
    same side. *)
Theorem orientation_is_transposition (ref : list point) (isVertical : bool)
    (p : point) :
  flattenData (transpose <$> ref) (negb isVertical) = flattenData ref isVertical
  ∧ goes_above (negb isVertical)
      (flattenData (transpose <$> ref) (negb isVertical)) (transpose p)
    = goes_above isVertical (flattenData ref isVertical) p.
Proof.
  assert (flattenData (transpose <$> ref) (negb isVertical)
          = flattenData ref isVertical) as Hflat.
  { unfold flattenData. generalize (∅ : gmap Z Z).
    induction ref as [|q ref IH]; intros acc; [done|].
    cbn [fmap list_fmap fold_left]. rewrite <- IH.
    by destruct isVertical. }
  split; [done|]. rewrite Hflat. by destruct isVertical.
Qed.

(** ** Edge cases of the split *)

Lemma filter_bool_all {A} (f : A → bool) (l : list A) :
  (∀ x, x ∈ l → f x = true) →
  filter (λ x, f x) l = l ∧ filter (λ x, ¬ f x) l = [].
Proof.
  induction l as [|x l IH]; intros Hall; [done|].
  rewrite filter_bool_cons, filter_negb_cons, (Hall x) by left.
  destruct IH as [-> ->]; [|done]. intros y Hy. apply Hall. by right.
Qed.

(** X9: when no key of the subject occurs among the reference's keys (in
    particular when the reference has no points at all), a partitioning call
    puts every point of the subject, in order, into [above] and leaves
    [below] empty. *)
Theorem unmatched_subject_all_above st subj s ref r darg dps ob :
  partitioned st subj s ref r →
  style_heap st !! bars s = Some ob →
  (∀ p q, p ∈ data s → q ∈ data r →
          key_of (isVertical_of ob) p ≠ key_of (isVertical_of ob) q) →
  ∃ st' above below A B,
    compareSeries subj darg dps st = Some (tt, st')
    ∧ plot_data st' = plot_data st ++ [above; below]
    ∧ series_heap st' !! above = Some A
    ∧ series_heap st' !! below = Some B
    ∧ data A = data s
    ∧ data B = [].
Proof.
  intros Hpart Hob Hkeys.
  destruct (compareSeries_outcome st subj s ref r darg dps Hpart)
    as (st' & above & below & A & B & ob' & ol & op & Hrun & Hout).
  assert (ob' = ob) as ->.
  { pose proof (out_bars _ _ _ _ _ _ _ _ _ _ _ _ _ Hout). congruence. }
  exists st', above, below, A, B.
  split; [done|]. split; [apply Hout|].
  split; [apply (out_lookup_above Hout)|].
  split; [apply (out_lookup_below Hout)|].
  rewrite (out_data_above Hout), (out_data_below Hout).
  apply filter_bool_all. intros p Hp.
  apply Is_true_true, goes_above_is_above. right.
  apply flattenData_lookup_None. intros q Hq Heq. by apply (Hkeys p q).
Qed.

(** The scenario with a reference series that has no points. *)
Definition st_no_reference_points : state :=
  {| series_heap := <[1%positive := set_data [] Scenario.reference]>
                      (series_heap Scenario.st0);
     style_heap := style_heap Scenario.st0;
     plot_data := plot_data Scenario.st0;
     currentSeries := 0 |}.

Lemma unmatched_subject_all_above_witness :
  partitioned st_no_reference_points 2%positive Scenario.subject
              1%positive (set_data [] Scenario.reference)
  ∧ ∃ st' above below A B,
      compareSeries 2%positive [] Scenario.no_dps st_no_reference_points
      = Some (tt, st')
      ∧ series_heap st' !! above = Some A
      ∧ series_heap st' !! below = Some B
      ∧ data A = data Scenario.subject
      ∧ data B = [].
Proof.
  set (st := st_no_reference_points).
  assert (partitioned st 2%positive Scenario.subject
            1%positive (set_data [] Scenario.reference)) as Hpart
    by (constructor; vm_compute; by eauto).
  split; [exact Hpart|].
  destruct (unmatched_subject_all_above st 2%positive Scenario.subject
              1%positive (set_data [] Scenario.reference) [] Scenario.no_dps
              Scenario.style0 Hpart)
    as (st' & above & below & A & B & Hrun & _ & HA & HB & HdA & HdB).
  - vm_compute. reflexivity.
  - intros p q _ Hq. by apply elem_of_nil in Hq.
  - exists st', above, below, A, B.
    split; [exact Hrun|]. split; [exact HA|]. split; [exact HB|].
    split; [exact HdA|exact HdB].
Defined.

(** X10: when a call gets past the guard with the subject itself as the
    reference (its [seriesIndex] resolves to the subject) and the subject's
    keys are pairwise different, every point equals its own reference value:
    all points go to [above], [below] stays empty, and the subject is
    hidden. *)
Theorem self_comparison_all_above st subj s darg dps ob :
  partitioned st subj s subj s →
  style_heap st !! bars s = Some ob →
  NoDup (key_of (isVertical_of ob) <$> data s) →
  ∃ st' above below A B o,
    compareSeries subj darg dps st = Some (tt, st')
    ∧ plot_data st' = plot_data st ++ [above; below]
    ∧ series_heap st' !! above = Some A
    ∧ series_heap st' !! below = Some B
    ∧ data A = data s
    ∧ data B = []
    ∧ style_heap st' !! bars s = Some o
    ∧ get o "show" = VBool false.
Proof.
  intros Hpart Hob Hnd.
  destruct (compareSeries_outcome st subj s subj s darg dps Hpart)
    as (st' & above & below & A & B & ob' & ol & op & Hrun & Hout).
  assert (ob' = ob) as ->.
  { pose proof (out_bars _ _ _ _ _ _ _ _ _ _ _ _ _ Hout). congruence. }
  exists st', above, below, A, B, (hide ob).
  split; [done|]. split; [apply Hout|].
  split; [apply (out_lookup_above Hout)|].
  split; [apply (out_lookup_below Hout)|].
  rewrite (out_data_above Hout), (out_data_below Hout).
  assert (filter (λ d, goes_above (isVertical_of ob)
                         (flattenData (data s) (isVertical_of ob)) d) (data s)
          = data s
          ∧ filter (λ d, ¬ goes_above (isVertical_of ob)
                           (flattenData (data s) (isVertical_of ob)) d) (data s)
            = []) as [-> ->].
  { apply filter_bool_all. intros p Hp.
    apply Is_true_true, goes_above_is_above. left.
    exists (value_of (isVertical_of ob) p).
    split; [by apply flattenData_lookup_NoDup|lia]. }
  split; [done|]. split; [done|]. split.
  - rewrite (out_style_hidden Hout (bars s)) by apply list_elem_of_here.
    by rewrite Hob.
  - unfold get, hide. by rewrite lookup_insert_eq.
Qed.

Lemma self_comparison_all_above_witness :
  partitioned Scenario.st_self_1 2%positive Scenario.subject_self
              2%positive Scenario.subject_self
  ∧ NoDup (key_of (isVertical_of Scenario.style0)
             <$> data Scenario.subject_self)
  ∧ ∃ st' above below A B,
      compareSeries 2%positive [] Scenario.no_dps Scenario.st_self_1
      = Some (tt, st')
      ∧ series_heap st' !! above = Some A
      ∧ series_heap st' !! below = Some B
      ∧ data A = data Scenario.subject_self
      ∧ data B = [].
Proof.
  assert (partitioned Scenario.st_self_1 2%positive Scenario.subject_self
            2%positive Scenario.subject_self) as Hpart
    by (constructor; vm_compute; by eauto).
  assert (NoDup (key_of (isVertical_of Scenario.style0)
                   <$> data Scenario.subject_self)) as Hnd.
  { vm_compute. rewrite !NoDup_cons, !not_elem_of_cons.
    split_and!; try done; try apply not_elem_of_nil; apply NoDup_nil_2. }
  split; [exact Hpart|]. split; [exact Hnd|].
  destruct (self_comparison_all_above Scenario.st_self_1 2%positive
              Scenario.subject_self [] Scenario.no_dps Scenario.style0 Hpart)
    as (st' & above & below & A & B & o & Hrun & _ & HA & HB & HdA & HdB & _).
  - vm_compute. reflexivity.
  - exact Hnd.
  - exists st', above, below, A, B.
    split; [exact Hrun|]. split; [exact HA|]. split; [exact HB|].
    split; [exact HdA|exact HdB].
Defined.

(** ** [copySeries] *)

(** X11: [copySeries] creates one series object and three option objects, all
    new and pairwise different, and touches nothing else: every object that
    existed is unchanged, and so are the series array and the counter.  The
    copy takes [pointsize] and [format] from the [datapoints] argument and
    starts with no points. *)
Theorem copySeries_frame st subj s dps col :
  series_heap st !! subj = Some s →
  (∀ g, g ∈ groups s → is_Some (style_heap st !! g)) →
  ∃ c st1 C,
    copySeries subj dps col st = Some (c, st1)
    ∧ (c ∉ dom (series_heap st))
    ∧ series_heap st1 = <[c := C]> (series_heap st)
    ∧ series_heap st1 !! subj = Some s
    ∧ style_heap st ⊆ style_heap st1
    ∧ dom (style_heap st1) = dom (style_heap st) ∪ list_to_set (groups C)
    ∧ NoDup (groups C)
    ∧ (∀ g, g ∈ groups C → g ∉ dom (style_heap st))
    ∧ plot_data st1 = plot_data st
    ∧ currentSeries st1 = currentSeries st
    ∧ datapoints C = {| dp_points := []; pointsize := pointsize dps;
                        format := format dps |}.
Proof.
  intros Hs Hg.
  destruct (Hg (bars s)) as [ob Hb]; [unfold groups; in_list|].
  destruct (Hg (lines s)) as [ol Hl]; [unfold groups; in_list|].
  destruct (Hg (points s)) as [op Hp]; [unfold groups; in_list|].
  destruct (copySeries_run st subj s dps col ob ol op Hs Hb Hl Hp)
    as (c & b & l & p & Hrun & Hc & Hfb & Hfl & Hfp & Hbl & Hbp & Hlp).
  eexists c, _, _. split; [exact Hrun|]. proj.
  split; [done|]. split; [done|].
  split.
  { rewrite lookup_insert_ne; [done|]. intros ->. apply Hc, elem_of_dom. eauto. }
  split.
  { etrans; [|apply insert_subseteq; rewrite !lookup_insert_ne by done;
                by apply not_elem_of_dom].
    etrans; [|apply insert_subseteq; rewrite !lookup_insert_ne by done;
                by apply not_elem_of_dom].
    apply insert_subseteq. by apply not_elem_of_dom. }
  split.
  { rewrite !dom_insert_L. unfold groups. cbn. set_solver. }
  split.
  { unfold groups. cbn. rewrite !NoDup_cons, !not_elem_of_cons.
    split_and!; try done; try apply not_elem_of_nil. apply NoDup_nil_2. }
  split.
  { intros g. unfold groups. cbn. rewrite !elem_of_cons, elem_of_nil.
    intros Hin. destruct_or!; try done; by subst g. }
  done.
Qed.

Lemma scenario_groups g :
  g ∈ groups Scenario.subject → is_Some (style_heap Scenario.st0 !! g).
Proof.
  unfold groups. cbn. rewrite !elem_of_cons, elem_of_nil.
  intros Hg. destruct_or!; try done; subst g; vm_compute; eauto.
Defined.

Lemma copySeries_frame_witness :
  series_heap Scenario.st0 !! 2%positive = Some Scenario.subject
  ∧ (∀ g, g ∈ groups Scenario.subject →
          is_Some (style_heap Scenario.st0 !! g))
  ∧ ∃ c st1,
      copySeries 2%positive Scenario.no_dps (VStr "red") Scenario.st0
      = Some (c, st1)
      ∧ plot_data st1 = plot_data Scenario.st0
      ∧ series_heap st1 !! 2%positive = Some Scenario.subject.
Proof.
  assert (series_heap Scenario.st0 !! 2%positive = Some Scenario.subject) as Hs
    by (vm_compute; reflexivity).
  split; [exact Hs|]. split; [exact scenario_groups|].
  destruct (copySeries_frame Scenario.st0 2%positive Scenario.subject
              Scenario.no_dps (VStr "red") Hs scenario_groups)
    as (c & st1 & C & Hrun & _ & _ & Hsubj & _ & _ & _ & _ & Hplot & _).
  exists c, st1. split; [exact Hrun|]. split; [exact Hplot|exact Hsubj].
Defined.

(** X12: the copy is one level deep.  Each option object of the copy has
    exactly the properties of the original's whose value is not [undefined],
    with the same values, and so has the copy's remaining attributes: a
    property that holds a reference to an object holds the same reference in
    the copy, so that object is shared between the copy and the original. *)
Theorem copySeries_is_shallow st subj s dps col ob ol op :
  series_heap st !! subj = Some s →
  style_heap st !! bars s = Some ob →
  style_heap st !! lines s = Some ol →
  style_heap st !! points s = Some op →
  ∃ c st1 C cb cl cp,
    copySeries subj dps col st = Some (c, st1)
    ∧ series_heap st1 !! c = Some C
    ∧ style_heap st1 !! bars C = Some cb
    ∧ style_heap st1 !! lines C = Some cl
    ∧ style_heap st1 !! points C = Some cp
    ∧ (∀ k v, cb !! k = Some v ↔ ob !! k = Some v ∧ v ≠ VUndef)
    ∧ (∀ k v, cl !! k = Some v ↔ ol !! k = Some v ∧ v ≠ VUndef)
    ∧ (∀ k v, cp !! k = Some v ↔ op !! k = Some v ∧ v ≠ VUndef)
    ∧ (∀ k v, extra C !! k = Some v ↔ extra s !! k = Some v ∧ v ≠ VUndef)
    ∧ (∀ k l, ob !! k = Some (VRef l) → cb !! k = Some (VRef l))
    ∧ (∀ k l, extra s !! k = Some (VRef l) → extra C !! k = Some (VRef l)).
Proof.
  intros Hs Hb Hl Hp.
  destruct (copySeries_run st subj s dps col ob ol op Hs Hb Hl Hp)
    as (c & b & l & p & Hrun & Hc & Hfb & Hfl & Hfp & Hbl & Hbp & Hlp).
  eexists c, _, _, (extend ∅ ob), (extend ∅ ol), (extend ∅ op).
  split; [exact Hrun|]. proj.
  split; [apply lookup_insert_eq|]. cbn [bars lines points extra derived].
  split; [by rewrite !lookup_insert_ne, lookup_insert_eq by done|].
  split; [by rewrite lookup_insert_ne, lookup_insert_eq by done|].
  split; [by rewrite lookup_insert_eq|].
  split; [intros k v; apply extend_empty_lookup|].
  split; [intros k v; apply extend_empty_lookup|].
  split; [intros k v; apply extend_empty_lookup|].
  split; [intros k v; apply extend_empty_lookup|].
  split; intros k r Hk; by apply extend_empty_lookup.
Qed.

(** A subject whose [bars] carry a gradient object (a reference) and an
    [undefined] entry. *)
Definition gradient_bars : obj :=
  {[ "show"%string := VBool true;
     "fillColor"%string := VRef 77%positive;
     "zero"%string := VUndef ]}.
Definition st_gradient : state :=
  {| series_heap := series_heap Scenario.st0;
     style_heap := <[4%positive := gradient_bars]> (style_heap Scenario.st0);
     plot_data := plot_data Scenario.st0;
     currentSeries := 0 |}.

Lemma copySeries_is_shallow_witness :
  series_heap st_gradient !! 2%positive = Some Scenario.subject
  ∧ style_heap st_gradient !! bars Scenario.subject = Some gradient_bars
  ∧ style_heap st_gradient !! lines Scenario.subject = Some Scenario.style0
  ∧ style_heap st_gradient !! points Scenario.subject = Some Scenario.style0
  ∧ ∃ c st1 C cb,
      copySeries 2%positive Scenario.no_dps (VStr "red") st_gradient
      = Some (c, st1)
      ∧ series_heap st1 !! c = Some C
      ∧ style_heap st1 !! bars C = Some cb
      ∧ cb !! "fillColor"%string = Some (VRef 77%positive)
      ∧ cb !! "zero"%string = None.
Proof.
  assert (series_heap st_gradient !! 2%positive = Some Scenario.subject) as Hs
    by (vm_compute; reflexivity).
  assert (style_heap st_gradient !! bars Scenario.subject = Some gradient_bars)
    as Hb by (vm_compute; reflexivity).
  assert (style_heap st_gradient !! lines Scenario.subject
          = Some Scenario.style0) as Hl by (vm_compute; reflexivity).
  assert (style_heap st_gradient !! points Scenario.subject
          = Some Scenario.style0) as Hp by (vm_compute; reflexivity).
  split; [exact Hs|]. split; [exact Hb|]. split; [exact Hl|].
  split; [exact Hp|].
  destruct (copySeries_is_shallow st_gradient 2%positive Scenario.subject
              Scenario.no_dps (VStr "red") _ _ _ Hs Hb Hl Hp)
    as (c & st1 & C & cb & cl & cp & Hrun & HC & Hcb & _ & _ & Hprops & _ & _
        & _ & Hrefs & _).
  exists c, st1, C, cb.
  split; [exact Hrun|]. split; [exact HC|]. split; [exact Hcb|].
  split.
  - apply Hrefs. vm_compute. reflexivity.
  - destruct (cb !! "zero"%string) as [v|] eqn:Hz; [|reflexivity].
    apply Hprops in Hz as [Hz Hv]. vm_compute in Hz.
    injection Hz as <-. by destruct Hv.
Defined.

(** ** Series that do not share option objects *)

(** No option object belongs to two series objects. *)
Definition separated (st : state) : Prop :=
  ∀ l1 l2 s1 s2 g,
    series_heap st !! l1 = Some s1 → series_heap st !! l2 = Some s2 →
    g ∈ groups s1 → g ∈ groups s2 → l1 = l2.

(** X13: when no two series share an option object, a call of the hook
    changes no series other than the subject: every other series object that
    existed keeps its fields and its three option objects read exactly as
    before; and afterwards still no two series share an option object, the
    appended ones included. *)
Theorem hook_hides_only_the_subject st subj s darg dps :
  well_formed st →
  separated st →
  series_heap st !! subj = Some s →
  ∃ st',
    compareSeries subj darg dps st = Some (tt, st')
    ∧ separated st'
    ∧ ∀ l t g, l ≠ subj → series_heap st !! l = Some t → g ∈ groups t →
        series_heap st' !! l = Some t
        ∧ style_heap st' !! g = style_heap st !! g.
Proof.
  intros Hwf Hsep Hs. destruct (decide (skips st s)) as [Hskip|Hgo].
  - eexists. split; [by apply (compareSeries_skip st subj s)|]. by proj.
  - destruct (not_skips_partitioned st subj s Hwf Hs Hgo) as (ref & r & Hpart).
    destruct (compareSeries_outcome st subj s ref r darg dps Hpart)
      as (st' & above & below & A & B & ob & ol & op & Hrun & Hout).
    exists st'. split; [done|].
    pose proof (out_lookup_above Hout) as HA.
    pose proof (out_lookup_below Hout) as HB.
    assert (∀ l t, series_heap st' !! l = Some t →
              (l = above ∧ t = A) ∨ (l = below ∧ t = B)
              ∨ (l ≠ above ∧ l ≠ below ∧ series_heap st !! l = Some t)) as Hcases.
    { intros l t Hl.
      destruct (decide (l = above)) as [->|?]; [left; split; congruence|].
      destruct (decide (l = below)) as [->|?];
        [right; left; split; congruence|].
      right. right. split; [done|]. split; [done|].
      rewrite (out_series _ _ _ _ _ _ _ _ _ _ _ _ _ Hout) in Hl.
      by rewrite !lookup_insert_ne in Hl by done. }
    assert (∀ l t g, series_heap st !! l = Some t → g ∈ groups t →
              g ∈ dom (style_heap st)) as Hold.
    { intros l t g Hl Hg. apply elem_of_dom. by eapply wf_groups. }
    assert (∀ g, g ∈ groups A → g ∉ dom (style_heap st)) as HnewA.
    { intros g Hg. apply (out_new_not_old Hout). unfold groups in Hg.
      rewrite !elem_of_cons in *. tauto. }
    assert (∀ g, g ∈ groups B → g ∉ dom (style_heap st)) as HnewB.
    { intros g Hg. apply (out_new_not_old Hout). unfold groups in Hg.
      rewrite !elem_of_cons in *. tauto. }
    split.
    + intros l1 l2 s1 s2 g H1 H2 Hg1 Hg2.
      destruct (Hcases l1 s1 H1) as [[-> ->]|[[-> ->]|(? & ? & H1')]];
        destruct (Hcases l2 s2 H2) as [[-> ->]|[[-> ->]|(? & ? & H2')]];
        try done.
      * destruct (out_style_apart Hout g g); [|done]. left.
        unfold groups in *. rewrite !elem_of_cons in *. tauto.
      * by destruct (HnewA g Hg1); eapply Hold.
      * destruct (out_style_apart Hout g g); [|done]. right.
        unfold groups in *. rewrite !elem_of_cons in *. tauto.
      * by destruct (HnewB g Hg1); eapply Hold.
      * by destruct (HnewA g Hg2); eapply Hold.
      * by destruct (HnewB g Hg2); eapply Hold.
      * by eapply Hsep.
    + intros l t g Hne Hl Hg. split.
      * rewrite (out_lookup_old Hout); [done|]. apply elem_of_dom. eauto.
      * apply (out_style_frame Hout); [by eapply Hold|].
        intros Hin. apply Hne. by apply (Hsep l subj t s g).
Qed.

Lemma scenario_separated : separated Scenario.st0.
Proof.
  intros l1 l2 s1 s2 g H1 H2.
  unfold Scenario.st0 in H1, H2. cbn [series_heap] in H1, H2.
  rewrite lookup_insert_Some, lookup_singleton_Some in H1, H2.
  unfold groups. rewrite !elem_of_cons, !elem_of_nil.
  destruct H1 as [[<- <-]|(_ & <- & <-)];
    destruct H2 as [[<- <-]|(_ & <- & <-)]; try done;
    cbn; intros Hg1 Hg2; destruct_or!; try done; subst g; done.
Defined.

Lemma hook_hides_only_the_subject_witness :
  well_formed Scenario.st0
  ∧ separated Scenario.st0
  ∧ series_heap Scenario.st0 !! 2%positive = Some Scenario.subject
  ∧ ∃ st',
      compareSeries 2%positive [] Scenario.no_dps Scenario.st0 = Some (tt, st')
      ∧ series_heap st' !! 1%positive = Some Scenario.reference
      ∧ style_heap st' !! bars Scenario.reference
        = style_heap Scenario.st0 !! bars Scenario.reference.
Proof.
  assert (series_heap Scenario.st0 !! 2%positive = Some Scenario.subject) as Hs
    by (vm_compute; reflexivity).
  split; [exact scenario_well_formed|]. split; [exact scenario_separated|].
  split; [exact Hs|].
  destruct (hook_hides_only_the_subject Scenario.st0 2%positive Scenario.subject
              [] Scenario.no_dps scenario_well_formed scenario_separated Hs)
    as (st' & Hrun & _ & Hother).
  destruct (Hother 1%positive Scenario.reference (bars Scenario.reference))
    as [Href Hbars]; [done|vm_compute; reflexivity|unfold groups; in_list|].
  exists st'. split; [exact Hrun|]. split; [exact Href|exact Hbars].
Defined.
